(** * A finite-domain first-order-logic evaluator (logic.py), embedded in Rocq

    The Python module keeps four process-wide stores ([universe],
    [predicates], [free], [knowledge_base]) and mutates objects in place
    (Predicate fact tables, SATAssign binding dictionaries).  The embedding
    threads one explicit [State] through every operation with a small
    state-and-exception monad [M]; objects that Python shares by reference
    (Predicate instances, SATAssign dictionaries) live in heaps indexed by
    their [id()].

    Modelling conventions.
    - A Python [set]/[dict] lookup is modelled by the [__eq__] of the class
      (hashes agree exactly when [__eq__] can succeed: a Term hashes like
      its name, an empty-named Term like its identity; a Formula, an App or
      a bool never hashes like a str or a Term).
    - The iteration order of the [universe] set is the order of the list
      that represents it; every theorem holds for every order.
    - [interpret] recurses on a freshly built application, so it carries the
      remaining recursion depth; exhausting it is Python's RecursionError.
    - Assertions are enabled: a failed [assert] raises AssertionError.
    - The messages of exceptions keep the values they format, unformatted;
      [print] appends a line to [stdout]. *)

From Stdlib Require Import ZArith.
From stdpp Require Import base option list strings gmap.

Local Open Scope Z_scope.
Local Open Scope string_scope.
Local Open Scope list_scope.

(** ** Data model *)

(** class Term: a name, plus the identity of the object (used by [__eq__]
    and [__hash__] only when the name is empty). *)
Record Term := mkTerm { ident : nat; name : string }.

(** class Predicate: [arity] and [name] are set once by [__init__]; the
    mutable fact table [_truths] lives in the state, keyed by [pred_id]. *)
Record Predicate := mkPredicate { pred_id : nat; arity : Z; pred_name : string }.

(** class Function: only its identity matters to interpretation. *)
Record Function := mkFunction { func_id : nat; func_arity : Z; func_name : string }.

(** Formulas, deferred applications (class App) and the raw arguments an
    application captures. *)
Inductive Formula :=
| Top
| Bot
| _And (left right : Formula)
| _Or (left right : Formula)
| _Implies (left right : Formula)
| _Not (expr : Formula)
| Forall (binder : string) (scope : Formula)
| Exists (binder : string) (scope : Formula)
| PredApp (fn : Predicate) (args : list Arg)    (* App((predicate, args)) *)
| FuncApp (fn : Function) (args : list Arg)     (* App((function, args)) *)
| OtherApp (fn : string)                        (* App whose head is neither *)
| Pred (p : Predicate)                          (* a Predicate used as a Formula *)
with Arg :=
| AStr (s : string)        (* a raw str *)
| ATerm (t : Term)         (* a Term instance *)
| AForm (f : Formula)      (* a nested Formula or App *)
| ABool (tv : bool).       (* a truth value substituted for a nested formula *)

(** SATAssign / FreeVars contents. *)
Abbreviation Dict := (gmap string Term).

(** Messages of the exceptions the module raises. *)
Inductive Message :=
| Msg (s : string)
| CannotInterpret (arg : Arg) (u : list Term) (fr : Dict)
| Inconsistent (F : Formula) (evidence : Dict)
| MustBeTerms (arg : Arg)
| Unsuitable (arg : Arg)
| UnknownCallable (fn : string).

Inductive Exception :=
| AssertionError (msg : string)
| ValueError (msg : Message)
| TypeError (msg : string)
| RecursionError.

Inductive Result (A : Type) :=
| Ok (a : A)
| Raise (e : Exception).
Arguments Ok {A} a.
Arguments Raise {A} e.

(** ** The process state *)

Record State := mkState {
  universe : list Term;                         (* universe = Universe() *)
  predicates : list Predicate;                  (* predicates : Set[Predicate] *)
  free : Dict;                                  (* free = FreeVars() *)
  knowledge_base : list (Formula * option string);
  truths : gmap nat (list (list Term));         (* Predicate._truths, by id *)
  dicts : gmap nat Dict;                        (* SATAssign objects, by id *)
  next_id : nat;                                (* next fresh object identity *)
  stdout : list string                          (* lines printed so far *)
}.

Definition set_universe (u : list Term) (st : State) : State :=
  mkState u (predicates st) (free st) (knowledge_base st) (truths st)
          (dicts st) (next_id st) (stdout st).
Definition set_predicates (ps : list Predicate) (st : State) : State :=
  mkState (universe st) ps (free st) (knowledge_base st) (truths st)
          (dicts st) (next_id st) (stdout st).
Definition set_free (fr : Dict) (st : State) : State :=
  mkState (universe st) (predicates st) fr (knowledge_base st) (truths st)
          (dicts st) (next_id st) (stdout st).
Definition set_knowledge_base (kb : list (Formula * option string)) (st : State) : State :=
  mkState (universe st) (predicates st) (free st) kb (truths st)
          (dicts st) (next_id st) (stdout st).
Definition set_truths (ts : gmap nat (list (list Term))) (st : State) : State :=
  mkState (universe st) (predicates st) (free st) (knowledge_base st) ts
          (dicts st) (next_id st) (stdout st).
Definition set_dicts (ds : gmap nat Dict) (st : State) : State :=
  mkState (universe st) (predicates st) (free st) (knowledge_base st) (truths st)
          ds (next_id st) (stdout st).
Definition set_next_id (n : nat) (st : State) : State :=
  mkState (universe st) (predicates st) (free st) (knowledge_base st) (truths st)
          (dicts st) n (stdout st).
Definition set_stdout (out : list string) (st : State) : State :=
  mkState (universe st) (predicates st) (free st) (knowledge_base st) (truths st)
          (dicts st) (next_id st) out.

(** The default value [bindings=SATAssign()] of each [interpret] method is
    one dictionary object, created when the class body is executed and
    shared by every call that omits the argument.  They are the first ten
    objects of the module, in the order of the class definitions. *)
Definition default_bindings (self : Formula) : nat :=
  match self with
  | PredApp _ _ | FuncApp _ _ | OtherApp _ => 0
  | Top => 1
  | Bot => 2
  | _And _ _ => 3
  | _Or _ _ => 4
  | _Implies _ _ => 5
  | _Not _ => 6
  | Forall _ _ => 7
  | Exists _ _ => 8
  | Pred _ => 9
  end%nat.

(** The state of a freshly imported module. *)
Definition initial : State :=
  mkState [] [] ∅ [] ∅ (list_to_map ((λ i, (i, ∅)) <$> seq 0 10)) 10%nat [].

(** ** State and exception monad *)

Definition M (A : Type) : Type := State → Result A * State.

#[global] Instance M_ret : MRet M := λ A (a : A) st, (Ok a, st).
#[global] Instance M_bind : MBind M := λ A B (k : A → M B) (m : M A) st,
  match m st with
  | (Ok a, st') => k a st'
  | (Raise e, st') => (Raise e, st')
  end.

Definition raise {A} (e : Exception) : M A := λ st, (Raise e, st).
Definition gets {A} (f : State → A) : M A := λ st, (Ok (f st), st).
Definition modify (f : State → State) : M unit := λ st, (Ok tt, f st).

Definition print (line : string) : M unit :=
  modify (fun st => set_stdout (stdout st ++ [line]) st).

(** A new object receives the next identity. *)
Definition fresh_id : M nat :=
  fun st => (Ok (next_id st), set_next_id (S (next_id st)) st).

Definition assert (b : bool) (msg : string) : M unit :=
  if b then mret tt else raise (AssertionError msg).

(** ** class Term *)

Definition nonempty (s : string) : bool := negb (String.eqb s "").

(** Term.__eq__(self, t): [name = t if type(t) is str else t.name];
    [self.name == name if self.name else self is t].  Only a str or a Term
    reaches it through a set or dict lookup. *)
Definition Term___eq__ (self : Term) (t : Arg) : bool :=
  match t with
  | AStr s => if nonempty (name self) then String.eqb (name self) s else false
  | ATerm t => if nonempty (name self) then String.eqb (name self) (name t)
               else Nat.eqb (ident self) (ident t)
  | AForm _ | ABool _ => false
  end.

(** [arg in universe]. *)
Definition in_universe (arg : Arg) (u : list Term) : bool :=
  existsb (fun element => Term___eq__ element arg) u.

(** Term.__init__. *)
Definition Term___init__ (nm : string) : M Term :=
  id ← fresh_id;
  let self := mkTerm id nm in
  u ← gets universe;
  if nonempty nm && negb (in_universe (ATerm self) u) then
    modify (set_universe (u ++ [self]));;
    print ("Added " ++ nm ++ " to the universe");;
    mret self
  else mret self.

(** ** class FreeVars *)

(** FreeVars.__setitem__(self, key, val). *)
Definition FreeVars___setitem__ (key val : string) : M unit :=
  fr ← gets free;
  (if decide (is_Some (fr !! key)) then
     print ("Warning: resetting alread-set free variable binding: "
              ++ key ++ "=" ++ val)
   else mret tt);;
  t ← Term___init__ val;
  modify (fun st => set_free (<[key := t]> (free st)) st).

(** ** class Predicate *)

(** The fact table of a predicate object ([self._truths]). *)
Definition _truths (st : State) (self : Predicate) : list (list Term) :=
  default [] (truths st !! pred_id self).

(** Predicate.__init__(self, arity, name). *)
Definition Predicate___init__ (arity : Z) (nm : string) : M Predicate :=
  assert (bool_decide (arity < 3)) "Only allowing up to binary arguments.";;
  id ← fresh_id;
  let self := mkPredicate id arity nm in
  modify (λ st, set_truths (<[id := []]> (truths st)) st);;
  modify (λ st, set_predicates (predicates st ++ [self]) st);;
  mret self.

(** The loop shared by [fact] and [__call__]: a Term is kept, a str becomes
    [Term(arg)], anything else raises with the caller's message. *)
Fixpoint termify (err : Arg → Message) (args : list Arg) : M (list Term) :=
  match args with
  | [] => mret []
  | arg :: rest =>
      t ← match arg with
          | ATerm t => mret t
          | AStr s => Term___init__ s
          | _ => raise (ValueError (err arg))
          end;
      ts ← termify err rest;
      mret (t :: ts)
  end.

(** Equality of two tuples of Terms, as the set lookup performs it: same
    length and item-wise [__eq__] of the stored item (an identical item is
    equal to itself under [Term___eq__], so the identity shortcut of the
    comparison adds nothing). *)
Fixpoint tuple_eq (stored query : list Term) : bool :=
  match stored, query with
  | [], [] => true
  | s :: stored, q :: query => Term___eq__ s (ATerm q) && tuple_eq stored query
  | _, _ => false
  end.

(** [truth in self._truths]. *)
Definition in_truths (truth : list Term) (ts : list (list Term)) : bool :=
  existsb (λ stored, tuple_eq stored truth) ts.

(** Predicate.fact(self, *args). *)
Definition Predicate_fact (self : Predicate) (args : list Arg) : M unit :=
  assert (bool_decide (Z.of_nat (length args) = arity self)) "";;
  truth ← termify MustBeTerms args;
  modify (λ st,
    if in_truths truth (_truths st self) then st
    else set_truths (<[pred_id self := _truths st self ++ [truth]]> (truths st)) st).

(** Predicate.get_satisfying(self). *)
Definition Predicate_get_satisfying (self : Predicate) : M (list (list Term)) :=
  gets (λ st, _truths st self).

(** Predicate.__call__(self, *args): a deferred application as soon as one
    argument is not in the universe, else Top or Bot. *)
Definition Predicate___call__ (self : Predicate) (args : list Arg) : M Formula :=
  assert (bool_decide (Z.of_nat (length args) = arity self)) "";;
  u ← gets universe;
  if negb (forallb (λ arg, in_universe arg u) args) then
    mret (PredApp self args)
  else
    termify_ ← termify Unsuitable args;
    ts ← gets (λ st, _truths st self);
    mret (if in_truths termify_ ts then Top else Bot).

(** ** SATAssign objects *)

(** The contents of the dictionary object [bindings]. *)
Definition contents (st : State) (bindings : nat) : Dict :=
  default ∅ (dicts st !! bindings).

(** [bindings[key] = val], in place. *)
Definition SATAssign___setitem__ (bindings : nat) (key : string) (val : Term) : M unit :=
  modify (λ st, set_dicts (<[bindings := <[key := val]> (contents st bindings)]> (dicts st)) st).

(** The state right after [bindings[binder] = element]. *)
Definition bound (bindings : nat) (binder : string) (element : Term) (st : State) : State :=
  (SATAssign___setitem__ bindings binder element st).2.

(** [SATAssign(d)]: a new dictionary object holding a copy of [d]. *)
Definition SATAssign_new (d : Dict) : M nat :=
  id ← fresh_id;
  modify (λ st, set_dicts (<[id := d]> (dicts st)) st);;
  mret id.

(** [d[arg]] for a dictionary with str keys: a str is looked up as it is, a
    Term with a non-empty name hashes and compares like its name, anything
    else is absent. *)
Definition lookup_arg (arg : Arg) (d : Dict) : option Term :=
  match arg with
  | AStr s => d !! s
  | ATerm t => if nonempty (name t) then d !! name t else None
  | AForm _ | ABool _ => None
  end.

(** ** interpret *)

(** The loop [for element in universe] of Forall.interpret, over the
    elements read at loop entry (interpretation never changes the universe,
    see [interpret_preserves], so these are the elements of the live set). *)
Fixpoint Forall_loop (scope_interpret : nat → M (bool * nat)) (binder : string)
    (bindings : nat) (elements : list Term) : M (bool * nat) :=
  match elements with
  | [] => mret (true, bindings)
  | element :: elements =>
      SATAssign___setitem__ bindings binder element;;
      '(tv, m) ← scope_interpret bindings;
      if negb tv then mret (false, m)
      else Forall_loop scope_interpret binder bindings elements
  end.

(** The loop [for element in universe] of Exists.interpret; the variable
    [bindings] is rebound to what the scope returns. *)
Fixpoint Exists_loop (scope_interpret : nat → M (bool * nat)) (binder : string)
    (bindings : nat) (elements : list Term) : M (bool * nat) :=
  match elements with
  | [] => mret (false, bindings)
  | element :: elements =>
      SATAssign___setitem__ bindings binder element;;
      '(tv, bindings) ← scope_interpret bindings;
      if tv : bool then mret (true, bindings)
      else Exists_loop scope_interpret binder bindings elements
  end.

(** [enumerate(arglist)]. *)
Definition enumerate {A} (l : list A) : list (nat * A) := imap pair l.

(** The [for i, arg in enumerate(arglist)] loop of Predicate.interpret,
    writing the resolved value back with [arglist[i] = ...]. *)
Fixpoint resolve_loop (arg_interpret : Formula → nat → M (bool * nat))
    (items : list (nat * Arg)) (arglist : list Arg) (bindings : nat)
    : M (list Arg * nat) :=
  match items with
  | [] => mret (arglist, bindings)
  | (i, arg) :: items =>
      u ← gets universe;
      if in_universe arg u then resolve_loop arg_interpret items arglist bindings
      else
        match arg with
        | AForm f =>
            '(tv, bindings) ← arg_interpret f bindings;
            resolve_loop arg_interpret items (<[i := ABool tv]> arglist) bindings
        | _ =>
            d ← gets (λ st, contents st bindings);
            match lookup_arg arg d with
            | Some v => resolve_loop arg_interpret items (<[i := ATerm v]> arglist) bindings
            | None =>
                fr ← gets free;
                match lookup_arg arg fr with
                | Some v =>
                    resolve_loop arg_interpret items (<[i := ATerm v]> arglist) bindings
                | None => raise (ValueError (CannotInterpret arg u fr))
                end
            end
        end
  end.

(** Predicate.interpret(self, args=(args,), bindings): resolve the raw
    arguments, call the predicate on the resolved ones and interpret what
    the call returns (Top, Bot or another deferred application).
    [formula_interpret] is [interpret] at the remaining depth. *)
Definition Predicate_interpret (formula_interpret : Formula → nat → M (bool * nat))
    (self : Predicate) (args : list Arg) (bindings : nat) : M (bool * nat) :=
  '(arglist, bindings) ← resolve_loop formula_interpret (enumerate args) args bindings;
  f ← Predicate___call__ self arglist;
  formula_interpret f bindings.

(** [self.interpret(bindings=bindings)] for every class of formula and for
    App; [depth] is the recursion depth still available. *)
Fixpoint interpret (depth : nat) (self : Formula) (bindings : nat) : M (bool * nat) :=
  match depth with
  | O => raise RecursionError
  | S depth =>
      match self with
      | Top => mret (true, bindings)
      | Bot => mret (false, bindings)
      | _And l r =>
          '(b1, m1) ← interpret depth l bindings;
          '(b2, m2) ← interpret depth r m1;
          mret (b1 && b2, m2)
      | _Or l r =>
          '(b1, m1) ← interpret depth l bindings;
          '(b2, m2) ← interpret depth r m1;
          mret (b1 || b2, m2)
      | _Implies l r =>
          '(b, bindings) ← interpret depth l bindings;
          if b : bool then interpret depth r bindings
          else mret (true, bindings)
      | _Not expr =>
          '(tv, bindings) ← interpret depth expr bindings;
          mret (negb tv, bindings)
      | Forall binder scope =>
          u ← gets universe;
          Forall_loop (interpret depth scope) binder bindings u
      | Exists binder scope =>
          u ← gets universe;
          Exists_loop (interpret depth scope) binder bindings u
      | PredApp fn args =>
          (* App.interpret: fn.interpret(args=self[1:], bindings=bindings) *)
          Predicate_interpret (interpret depth) fn args bindings
      | FuncApp _ _ => raise (ValueError (Msg "Not yet implemented"))
      | OtherApp fn => raise (ValueError (UnknownCallable fn))
      | Pred _ => raise (AssertionError "")   (* assert len(args) == 1 with args=[] *)
      end
  end.

(** ** Knowledge base *)

(** Forall.fact(binder, expr, name=None). *)
Definition Forall_fact (depth : nat) (binder : string) (expr : Formula)
    (nm : option string) : M unit :=
  let F := Forall binder expr in
  fr ← gets free;
  bindings ← SATAssign_new fr;
  '(tv, e) ← interpret depth F bindings;
  if negb tv then
    evidence ← gets (λ st, contents st e);
    raise (ValueError (Inconsistent F evidence))
  else
    modify (λ st, set_knowledge_base (knowledge_base st ++ [(F, nm)]) st).

(** Exists.fact(self, *args). *)
Definition Exists_fact : M unit :=
  raise (ValueError (Msg "Not allowing existential facts.")).

(** ** Reset *)

(** clear_all(). *)
Definition clear_all : M unit :=
  modify (set_universe []);;
  modify (set_predicates []);;
  modify (set_free ∅);;
  modify (set_knowledge_base []).

(** ** Operators on Terms and Predicates *)

(** Whatever stands on the other side of an operator. *)
Inductive Value :=
| VArg (a : Arg)             (* a str, a Term, a Formula or App, a bool *)
| VPredicate (p : Predicate)
| VFunction (f : Function)
| VNone.

(** Term.__and__, Term.__or__, Term.__not__. *)
Definition Term___and__ (self : Term) (other : Value) : Result Value :=
  Raise (ValueError (Msg "And is not defined for terms")).
Definition Term___or__ (self : Term) (other : Value) : Result Value :=
  Raise (ValueError (Msg "Or is not defined for terms")).
Definition Term___not__ (self : Term) (other : Value) : Result Value :=
  Raise (ValueError (Msg "Not is not defined for terms")).

(** The composition methods that [class Term] defines, by name. *)
Definition Term_method (method : string) : option (Term → Value → Result Value) :=
  if String.eqb method "__and__" then Some Term___and__
  else if String.eqb method "__or__" then Some Term___or__
  else if String.eqb method "__not__" then Some Term___not__
  else None.

(** The operators the module uses as connectives, [x & y], [x | y] and
    [~x], and the special method Python calls for each. *)
Inductive Composition := BitAnd | BitOr | Invert.

Definition special_method (op : Composition) : string :=
  match op with
  | BitAnd => "__and__"
  | BitOr => "__or__"
  | Invert => "__invert__"
  end.

(** [self op other] with a Term on the left: the method of the class when
    it defines one, else the operand is unsupported. *)
Definition Term_operator (op : Composition) (self : Term) (other : Value)
    : Result Value :=
  match Term_method (special_method op) with
  | Some method => method self other
  | None => Raise (TypeError "unsupported operand type")
  end.

(** Predicate.__eq__, Predicate.__lt__, Predicate.__gt__. *)
Definition Predicate___eq__ (self : Predicate) (other : Value) : Result Value :=
  Raise (ValueError (Msg "Direct equality testing for predicates not supported")).
Definition Predicate___lt__ (self : Predicate) (other : Value) : Result Value :=
  Raise (ValueError (Msg "Predicates should not be compared")).
Definition Predicate___gt__ (self : Predicate) (other : Value) : Result Value :=
  Raise (ValueError (Msg "Predicates should not be compared")).

(** [==], [!=], [<], [>], [<=], [>=]. *)
Inductive Comparison := CmpEq | CmpNe | CmpLt | CmpGt | CmpLe | CmpGe.

(** [self op other] with a Predicate on the left.  [!=] is the inherited
    [object.__ne__], which calls [__eq__] and negates its answer; [<=] and
    [>=] are defined by no class of the module, on either side. *)
Definition Predicate_compare (op : Comparison) (self : Predicate) (other : Value)
    : Result Value :=
  match op with
  | CmpEq => Predicate___eq__ self other
  | CmpNe =>
      match Predicate___eq__ self other with
      | Ok (VArg (ABool b)) => Ok (VArg (ABool (negb b)))
      | r => r
      end
  | CmpLt => Predicate___lt__ self other
  | CmpGt => Predicate___gt__ self other
  | CmpLe | CmpGe => Raise (TypeError "not supported between instances")
  end.

(** ** Scenario of the module's own [_tests] *)

Definition M21 := AStr "MATH21".
Definition M22 := AStr "MATH22".
Definition M121 := AStr "MATH121".

(** [universe.clear()], the declaration of PreReq and its two facts. *)
Definition setup : M Predicate :=
  modify (set_universe []);;
  PreReq ← Predicate___init__ 2 "PreReq";
  Predicate_fact PreReq [M21; M22];;
  Predicate_fact PreReq [M22; M121];;
  mret PreReq.

(** The predicate object and the state that [setup] leaves. *)
Definition PreReq : Predicate := mkPredicate 10 2 "PreReq".
Definition after_setup : State := (setup initial).2.

(** [PreReq("y", "MATH121")] and [PreReq("x", "x")], both deferred. *)
Definition PreReq_y_121 : Formula := PredApp PreReq [AStr "y"; M121].
Definition PreReq_x_x : Formula := PredApp PreReq [AStr "x"; AStr "x"].

(** [PreReq("MATH22", "x")], deferred because "x" is no element. *)
Definition PreReq_22_x : Formula := PredApp PreReq [M22; AStr "x"].

(** The transitivity formula of the tests:
    [Forall y, Forall z, (PreReq(x,y) & PreReq(y,z)) > PreReq(x,z)]. *)
Definition transitive : Formula :=
  Forall "y" (Forall "z"
    (_Implies (_And (PredApp PreReq [AStr "x"; AStr "y"])
                    (PredApp PreReq [AStr "y"; AStr "z"]))
              (PredApp PreReq [AStr "x"; AStr "z"]))).

(** [next = Function("next", 1, next_fn)] and [PreReq("x", next("y"))]. *)
Definition next : Function := mkFunction 15 1 "next".
Definition PreReq_x_next_y : Formula :=
  PredApp PreReq [AStr "x"; AForm (FuncApp next [AStr "y"])].

(** The state of the tests after [setup] with "x" and "y" bound to the
    element MATH21 in the dictionary object 0. *)
Definition after_binding_x_y : State :=
  bound 0 "y" (mkTerm 11 "MATH21") (bound 0 "x" (mkTerm 11 "MATH21") after_setup).

(** * Notions used by the statements *)

(** The part of the state that only the construction API writes: everything
    but the SATAssign heap and the identity counter. *)
Definition world (st : State) :=
  (universe st, predicates st, free st, knowledge_base st, truths st, stdout st).

(** [m] leaves the world alone. *)
Definition preserves {A} (m : M A) : Prop :=
  ∀ st r st', m st = (r, st') → world st' = world st.

(** [m] leaves the world and every SATAssign object alone. *)
Definition pure_lookup {A} (m : M A) : Prop :=
  ∀ st r st', m st = (r, st') → world st' = world st ∧ dicts st' = dicts st.

(** What [termify] makes of one argument: a Term is kept, a str becomes a
    Term of that name. *)
Definition coerced (arg : Arg) (t : Term) : Prop :=
  match arg with
  | ATerm t' => t = t'
  | AStr s => name t = s
  | AForm _ | ABool _ => False
  end.

(** [m ⊑ m']: whatever [m] computes without running out of depth, [m']
    computes too. *)
#[global] Instance M_sqsubseteq {A} : SqSubsetEq (M A) := λ m m',
  ∀ st r st', m st = (r, st') → r ≠ Raise RecursionError → m' st = (r, st').

(** The dictionary returned is the very object that was passed in. *)
Definition same_object (b : nat) (m : M (bool * nat)) : Prop :=
  ∀ st tv m' st', m st = (Ok (tv, m'), st') → m' = b.

(** [Interp f b st r st']: given enough recursion depth, interpreting [f]
    with the dictionary object [b] in state [st] ends with outcome [r]
    (a result or an exception) in state [st']. *)
Definition Interp (f : Formula) (b : nat) (st : State)
    (r : Result (bool * nat)) (st' : State) : Prop :=
  ∃ d, interpret d f b st = (r, st') ∧ r ≠ Raise RecursionError.

(** The outcome of a binary connective once its left operand gave [b1]:
    the right operand's outcome with the truth values combined. *)
Definition combine (op : bool → bool → bool) (b1 : bool)
    (res2 : Result (bool * nat)) : Result (bool * nat) :=
  match res2 with
  | Ok (b2, m2) => Ok (op b1 b2, m2)
  | Raise e => Raise e
  end.

(** [all_true binder scope bindings es st st']: starting in [st], binding
    [binder] to each element of [es] in turn and interpreting [scope] gives
    true every time and ends in [st']. *)
Inductive all_true (binder : string) (scope : Formula) (bindings : nat)
  : list Term → State → State → Prop :=
| all_true_nil st : all_true binder scope bindings [] st st
| all_true_cons e es st m st1 st2 :
    Interp scope bindings (bound bindings binder e st) (Ok (true, m)) st1 →
    all_true binder scope bindings es st1 st2 →
    all_true binder scope bindings (e :: es) st st2.

(** Outcomes of [Forall.fact], given enough recursion depth. *)
Definition Fact (binder : string) (expr : Formula) (nm : option string)
    (st : State) (r : Result unit) (st' : State) : Prop :=
  ∃ d, Forall_fact d binder expr nm st = (r, st') ∧ r ≠ Raise RecursionError.

(** The state in which [Forall.fact] interprets its formula: [st] with one
    new SATAssign object, of identity [next_id st], holding a copy of the
    free variables. *)
Definition with_free_bindings (st : State) : State :=
  (SATAssign_new (free st) st).2.

(** The resolution of one raw argument as the specification words it, to
    be compared with the loop of Predicate.interpret ([resolve_loop]): a
    universe member is kept; a nested formula or application is
    interpreted and replaced by its truth value; otherwise the local
    bindings are consulted, then the free variables; otherwise the
    unbound-variable error reports the argument, the universe and the free
    variables. *)
Definition spec_resolve_arg (arg_interpret : Formula → nat → M (bool * nat))
    (arg : Arg) (bindings : nat) : M (Arg * nat) :=
  u ← gets universe;
  if in_universe arg u then mret (arg, bindings)
  else
    match arg with
    | AForm f =>
        '(tv, bindings) ← arg_interpret f bindings;
        mret (ABool tv, bindings)
    | _ =>
        d ← gets (λ st, contents st bindings);
        fr ← gets free;
        match lookup_arg arg d, lookup_arg arg fr with
        | Some v, _ => mret (ATerm v, bindings)
        | None, Some v => mret (ATerm v, bindings)
        | None, None => raise (ValueError (CannotInterpret arg u fr))
        end
    end.

(** The specification's resolution of an argument list: argument by
    argument, left to right, threading the bindings. *)
Fixpoint spec_resolve_args (arg_interpret : Formula → nat → M (bool * nat))
    (args : list Arg) (bindings : nat) : M (list Arg * nat) :=
  match args with
  | [] => mret ([], bindings)
  | arg :: args =>
      '(v, bindings) ← spec_resolve_arg arg_interpret arg bindings;
      '(vs, bindings) ← spec_resolve_args arg_interpret args bindings;
      mret (v :: vs, bindings)
  end.

(** An argument has a resolution when one of the four rules applies. *)
Definition has_resolution (st : State) (bindings : nat) (arg : Arg) : bool :=
  in_universe arg (universe st)
  || match arg with AForm _ => true | _ => false end
  || bool_decide (is_Some (lookup_arg arg (contents st bindings)))
  || bool_decide (is_Some (lookup_arg arg (free st))).


(** * Notions used by the further properties *)

(** [all_false binder scope bindings es st st']: starting in [st], binding
    [binder] to each element of [es] in turn and interpreting [scope] gives
    false every time and ends in [st']. *)
Inductive all_false (binder : string) (scope : Formula) (bindings : nat)
  : list Term → State → State → Prop :=
| all_false_nil st : all_false binder scope bindings [] st st
| all_false_cons e es st m st1 st2 :
    Interp scope bindings (bound bindings binder e st) (Ok (false, m)) st1 →
    all_false binder scope bindings es st1 st2 →
    all_false binder scope bindings (e :: es) st st2.

(** The names a formula can bind: the binders of its quantifiers, those of
    the formulas nested in the arguments of its predicate applications
    included. *)
Fixpoint binders (f : Formula) : list string :=
  match f with
  | Top | Bot | FuncApp _ _ | OtherApp _ | Pred _ => []
  | _And l r | _Or l r | _Implies l r => binders l ++ binders r
  | _Not e => binders e
  | Forall x s | Exists x s => x :: binders s
  | PredApp _ args =>
      (fix go (args : list Arg) : list string :=
         match args with
         | [] => []
         | AForm f :: args => binders f ++ go args
         | _ :: args => go args
         end) args
  end.

Definition arg_binders (arg : Arg) : list string :=
  match arg with
  | AForm f => binders f
  | _ => []
  end.

(** [touches keys b m]: [m] writes to no SATAssign object but [b], and in
    [b] only under the keys [keys]. *)
Definition touches {A} (keys : list string) (b : nat) (m : M A) : Prop :=
  ∀ st r st', m st = (r, st') →
    (∀ b', b' ≠ b → dicts st' !! b' = dicts st !! b')
    ∧ (∀ k, k ∉ keys → contents st' b !! k = contents st b !! k).

(** Every member of the universe has a name: what Term.__init__ maintains,
    since it registers a Term only [if name]. *)
Definition universe_named (u : list Term) : Prop :=
  ∀ e, e ∈ u → nonempty (name e) = true.

(** The universe holds named Terms with pairwise different names. *)
Definition universe_ok (st : State) : Prop :=
  universe_named (universe st) ∧ NoDup (name <$> universe st).

(** Every Term of every fact of [p] has a name. *)
Definition facts_named (st : State) (p : Predicate) : Prop :=
  ∀ truth t, truth ∈ _truths st p → t ∈ truth → nonempty (name t) = true.

(** The calls a user of the module can make, and the state each leaves
    (whether it returns or raises). *)
Inductive Call :=
| NewTerm (nm : string)                               (* Term(nm) *)
| NewPredicate (arity : Z) (nm : string)              (* Predicate(arity, nm) *)
| AssertFact (p : Predicate) (args : list Arg)        (* p.fact(args...) *)
| Apply (p : Predicate) (args : list Arg)             (* p(args...) *)
| BindFree (key val : string)                         (* free[key] = val *)
| Interpret (depth : nat) (f : Formula) (bindings : nat)
| AssertForall (depth : nat) (binder : string) (expr : Formula) (nm : option string)
| ClearAll.                                           (* clear_all() *)

Definition perform (c : Call) (st : State) : State :=
  match c with
  | NewTerm nm => (Term___init__ nm st).2
  | NewPredicate arity nm => (Predicate___init__ arity nm st).2
  | AssertFact p args => (Predicate_fact p args st).2
  | Apply p args => (Predicate___call__ p args st).2
  | BindFree key val => (FreeVars___setitem__ key val st).2
  | Interpret depth f bindings => (interpret depth f bindings st).2
  | AssertForall depth binder expr nm => (Forall_fact depth binder expr nm st).2
  | ClearAll => (clear_all st).2
  end.

(** The state after a sequence of calls. *)
Definition session (calls : list Call) (st : State) : State :=
  foldl (λ st c, perform c st) st calls.

(** [m] keeps the universe well-formed and only ever appends to it. *)
Definition grows_universe {A} (m : M A) : Prop :=
  ∀ st r st', m st = (r, st') →
    universe st `prefix_of` universe st'
    ∧ (universe_ok st → universe_ok st').

(** ** A reference semantics for the quantified fragment

    What a formula built from the connectives, the quantifiers and
    predicate applications to names is expected to mean, written with
    functional environments; [interpret], which updates one dictionary in
    place, is compared with it. *)

(** The names that occur free in a formula: the str arguments of its
    predicate applications that no enclosing quantifier binds. *)
Fixpoint free_names (f : Formula) : list string :=
  match f with
  | Top | Bot | FuncApp _ _ | OtherApp _ | Pred _ => []
  | _And l r | _Or l r | _Implies l r => free_names l ++ free_names r
  | _Not e => free_names e
  | Forall x s | Exists x s => filter (λ k, k ≠ x) (free_names s)
  | PredApp _ args =>
      omap (λ arg, match arg with AStr k => Some k | _ => None end) args
  end.

Definition universe_names (st : State) : list string := name <$> universe st.

(** What a name denotes: itself when it names a member of the universe,
    otherwise the Term the environment binds it to, otherwise the Term the
    free variables bind it to. *)
Definition denotation (st : State) (env : Dict) (k : string) : option string :=
  if bool_decide (k ∈ universe_names st) then Some k
  else match env !! k with
       | Some v => Some (name v)
       | None => name <$> free st !! k
       end.

Fixpoint denotations (st : State) (env : Dict) (args : list Arg) : option (list string) :=
  match args with
  | [] => Some []
  | AStr k :: args =>
      n ← denotation st env k; ns ← denotations st env args; Some (n :: ns)
  | _ :: _ => None
  end.

(** The facts of a predicate, as tuples of names. *)
Definition fact_names (st : State) (p : Predicate) : list (list string) :=
  (λ truth : list Term, name <$> truth) <$> _truths st p.

(** Truth of a formula in the interpretation held by [st], under the
    environment [env]. *)
Fixpoint holds (st : State) (env : Dict) (f : Formula) : bool :=
  match f with
  | Top => true
  | Bot => false
  | _And l r => holds st env l && holds st env r
  | _Or l r => holds st env l || holds st env r
  | _Implies l r => implb (holds st env l) (holds st env r)
  | _Not e => negb (holds st env e)
  | Forall x s => forallb (λ e, holds st (<[x := e]> env) s) (universe st)
  | Exists x s => existsb (λ e, holds st (<[x := e]> env) s) (universe st)
  | PredApp p args =>
      match denotations st env args with
      | Some ns => bool_decide (ns ∈ fact_names st p)
      | None => false
      end
  | FuncApp _ _ | OtherApp _ | Pred _ => false
  end.

(** A name denotes a member of the universe. *)
Definition resolves (st : State) (env : Dict) (k : string) : bool :=
  match denotation st env k with
  | Some n => bool_decide (n ∈ universe_names st)
  | None => false
  end.

(** Every free name of the formula denotes a member of the universe. *)
Definition closed (st : State) (env : Dict) (f : Formula) : bool :=
  forallb (resolves st env) (free_names f).

Definition is_name (arg : Arg) : bool :=
  match arg with AStr _ => true | _ => false end.

(** The fragment, with the discipline on bound names under which updating
    the dictionary in place cannot be observed: predicates are applied to
    as many names as their arity; the right operand of a connective does
    not use, free, a name that the left operand binds; the scope of a
    quantifier does not use, free, a name that it binds itself further
    inside, the quantifier's own binder apart. *)
Fixpoint hygienic (f : Formula) : bool :=
  match f with
  | Top | Bot => true
  | _And l r | _Or l r | _Implies l r =>
      hygienic l && hygienic r
      && forallb (λ k, bool_decide (k ∉ free_names r)) (binders l)
  | _Not e => hygienic e
  | Forall x s | Exists x s =>
      hygienic s
      && forallb (λ k, bool_decide (k ∈ free_names s → k = x)) (binders s)
  | PredApp p args =>
      bool_decide (Z.of_nat (length args) = arity p) && forallb is_name args
  | FuncApp _ _ | OtherApp _ | Pred _ => false
  end.

(** The recursion depth that interpreting a formula of the fragment takes. *)
Fixpoint height (f : Formula) : nat :=
  match f with
  | _And l r | _Or l r | _Implies l r => S (height l `max` height r)
  | _Not e => S (height e)
  | Forall _ s | Exists _ s => S (height s)
  | PredApp _ _ => 2
  | _ => 1
  end.

(** The matrix of a formula: what is left below its leading quantifiers. *)
Fixpoint matrix (f : Formula) : Formula :=
  match f with
  | Forall _ s | Exists _ s => matrix s
  | _ => f
  end.

(** [Exists x, Exists y, PreReq(x, y)]. *)
Definition some_prerequisite : Formula :=
  Exists "x" (Exists "y" (PredApp PreReq [AStr "x"; AStr "y"])).

(** [keeps b m]: every name bound in the dictionary [b] before [m] is
    bound in it after. *)
Definition keeps {A} (b : nat) (m : M A) : Prop :=
  ∀ st r st', m st = (r, st') →
    ∀ k, is_Some (contents st b !! k) → is_Some (contents st' b !! k).

(** * Properties *)

(** ** Reasoning about [M] *)

Section Monad.
Context {A B : Type}.
Implicit Types (m : M A) (k : A → M B).

Lemma bind_Ok m k st a st1 :
  m st = (Ok a, st1) → (m ≫= k) st = k a st1.
Proof. intros H. unfold mbind, M_bind. by rewrite H. Qed.

Lemma bind_Raise m k st e st1 :
  m st = (Raise e, st1) → (m ≫= k) st = (Raise e, st1).
Proof. intros H. unfold mbind, M_bind. by rewrite H. Qed.

Lemma bind_inv m k st r st' :
  (m ≫= k) st = (r, st') →
  (∃ a st1, m st = (Ok a, st1) ∧ k a st1 = (r, st'))
  ∨ (∃ e, m st = (Raise e, st') ∧ r = Raise e).
Proof.
  unfold mbind, M_bind. destruct (m st) as [[a|e] st1]; intros H.
  - left. eauto.
  - right. exists e. by simplify_eq.
Qed.
End Monad.

(** Inversion of a bind that returned a result. *)
Ltac inv_bind H :=
  apply bind_inv in H as [(? & ? & ? & H) | (? & ? & [=])].

Lemma preserves_bind {A B} (m : M A) (k : A → M B) :
  preserves m → (∀ a, preserves (k a)) → preserves (m ≫= k).
Proof.
  intros Hm Hk st r st' [(a & st1 & H1 & H2) | (e & H1 & _)]%bind_inv.
  - rewrite (Hk _ _ _ _ H2). eauto.
  - eauto.
Qed.

Lemma preserves_mret {A} (a : A) : preserves (mret a).
Proof. intros st r st' [= _ <-]. done. Qed.

Lemma preserves_raise {A} e : preserves (@raise A e).
Proof. intros st r st' [= _ <-]. done. Qed.

Lemma preserves_gets {A} (f : State → A) : preserves (gets f).
Proof. intros st r st' [= _ <-]. done. Qed.

Lemma preserves_setitem bindings key val :
  preserves (SATAssign___setitem__ bindings key val).
Proof. intros st r st' [= _ <-]. done. Qed.

Lemma preserves_fresh_id : preserves fresh_id.
Proof. intros st r st' [= _ <-]. done. Qed.

Lemma preserves_assert b msg : preserves (assert b msg).
Proof. destruct b; [apply preserves_mret | apply preserves_raise]. Qed.

(** ** Terms and the universe *)

Lemma in_universe_str_term u s id :
  in_universe (AStr s) u = true → in_universe (ATerm (mkTerm id s)) u = true.
Proof.
  unfold in_universe. rewrite !existsb_exists.
  intros (e & He & Heq). exists e. split; [done|].
  simpl in *. by destruct (nonempty (name e)).
Qed.

(** A formula, an application or a truth value is never a member. *)
Lemma in_universe_form u f : in_universe (AForm f) u = false.
Proof. unfold in_universe. by induction u. Qed.

Lemma in_universe_bool u tv : in_universe (ABool tv) u = false.
Proof. unfold in_universe. by induction u. Qed.

(** Constructing a Term for a name that is already registered changes
    nothing but the identity counter. *)
Lemma Term___init___registered nm st :
  in_universe (AStr nm) (universe st) = true →
  Term___init__ nm st = (Ok (mkTerm (next_id st) nm), set_next_id (S (next_id st)) st).
Proof.
  intros Hin. unfold Term___init__.
  erewrite bind_Ok; [|reflexivity]. erewrite bind_Ok; [|reflexivity].
  cbn [universe set_next_id].
  by rewrite (in_universe_str_term _ _ (next_id st) Hin), andb_false_r.
Qed.

Lemma termify_concrete err args st :
  forallb (λ arg, in_universe arg (universe st)) args = true →
  ∃ ts st', termify err args st = (Ok ts, st')
            ∧ Forall2 coerced args ts
            ∧ world st' = world st ∧ dicts st' = dicts st.
Proof.
  revert st. induction args as [|arg args IH]; intros st Hall.
  - exists [], st. by repeat split.
  - cbn [forallb] in Hall. apply andb_true_iff in Hall as [Harg Hargs].
    cbn [termify]. destruct arg as [s|t|f|tv];
      [| |by rewrite in_universe_form in Harg|by rewrite in_universe_bool in Harg].
    + erewrite bind_Ok; [|by apply Term___init___registered].
      destruct (IH (set_next_id (S (next_id st)) st)) as (ts & st' & Hts & Hco & Hw & Hd);
        [done|].
      erewrite bind_Ok; [|exact Hts].
      exists (mkTerm (next_id st) s :: ts), st'. repeat split; try done.
      by constructor.
    + erewrite bind_Ok; [|reflexivity].
      destruct (IH st) as (ts & st' & Hts & Hco & Hw & Hd); [done|].
      erewrite bind_Ok; [|exact Hts].
      exists (t :: ts), st'. repeat split; try done. by constructor.
Qed.

(** ** Predicate.__call__ *)

Lemma Predicate___call___concrete self args st :
  Z.of_nat (length args) = arity self →
  forallb (λ arg, in_universe arg (universe st)) args = true →
  ∃ ts st',
    Predicate___call__ self args st
      = (Ok (if in_truths ts (_truths st self) then Top else Bot), st')
    ∧ Forall2 coerced args ts
    ∧ world st' = world st ∧ dicts st' = dicts st.
Proof.
  intros Hlen Hb. unfold Predicate___call__.
  rewrite bool_decide_eq_true_2 by done. cbn [assert].
  erewrite bind_Ok; [|reflexivity]. erewrite bind_Ok; [|reflexivity].
  rewrite Hb. cbn [negb].
  destruct (termify_concrete Unsuitable args st Hb) as (ts & st' & Hts & Hco & Hw & Hd).
  exists ts, st'. repeat split; try done.
  erewrite bind_Ok; [|exact Hts]. erewrite bind_Ok; [|reflexivity].
  unfold _truths. by injection Hw as _ _ _ _ -> _.
Qed.

Lemma Predicate___call___deferred self args st :
  Z.of_nat (length args) = arity self →
  forallb (λ arg, in_universe arg (universe st)) args = false →
  Predicate___call__ self args st = (Ok (PredApp self args), st).
Proof.
  intros Hlen Hb. unfold Predicate___call__.
  rewrite bool_decide_eq_true_2 by done. cbn [assert].
  erewrite bind_Ok; [|reflexivity]. erewrite bind_Ok; [|reflexivity].
  by rewrite Hb.
Qed.

Lemma Predicate___call___arity self args st :
  Z.of_nat (length args) ≠ arity self →
  Predicate___call__ self args st = (Raise (AssertionError ""), st).
Proof.
  intros Hlen. unfold Predicate___call__.
  by rewrite bool_decide_eq_false_2 by done.
Qed.

(** Whatever it returns, a call leaves the world and the dictionaries as
    they were: the only Terms it constructs are already registered. *)
Lemma Predicate___call___pure self args : pure_lookup (Predicate___call__ self args).
Proof.
  intros st r st' H.
  destruct (decide (Z.of_nat (length args) = arity self)) as [Hlen|Hlen].
  - destruct (forallb (λ arg, in_universe arg (universe st)) args) eqn:Hb.
    + destruct (Predicate___call___concrete self args st Hlen Hb)
        as (ts & st1 & Hcall & _ & Hw & Hd).
      rewrite Hcall in H. by injection H as _ <-.
    + rewrite Predicate___call___deferred in H by done. by injection H as _ <-.
  - rewrite Predicate___call___arity in H by done. by injection H as _ <-.
Qed.

Lemma forallb_in_universe args u :
  forallb (λ arg, in_universe arg u) args = true
  ↔ ∀ arg, arg ∈ args → in_universe arg u = true.
Proof.
  rewrite forallb_forall. split; intros H arg Hin; apply H; by apply list_elem_of_In.
Qed.

(** C1. For a predicate of arity k and k arguments: when every argument is
    in the universe the call returns Top if the tuple of coerced Terms is in
    the fact table and Bot otherwise, leaving universe, fact tables, free
    variables and knowledge base as they were; when some argument is not in
    the universe it returns the deferred application of the predicate to
    the raw arguments (neither Top nor Bot) and the state is untouched. *)
Theorem Predicate_call_eager_or_deferred (self : Predicate) (args : list Arg) (st : State) :
  Z.of_nat (length args) = arity self →
  ((∀ arg, arg ∈ args → in_universe arg (universe st) = true) →
   ∃ ts st',
     Predicate___call__ self args st
       = (Ok (if in_truths ts (_truths st self) then Top else Bot), st')
     ∧ Forall2 coerced args ts
     ∧ world st' = world st ∧ dicts st' = dicts st)
  ∧ ((∃ arg, arg ∈ args ∧ in_universe arg (universe st) = false) →
     Predicate___call__ self args st = (Ok (PredApp self args), st)
     ∧ PredApp self args ≠ Top ∧ PredApp self args ≠ Bot).
Proof.
  intros Hlen. split.
  - intros Hall. apply Predicate___call___concrete; [done|].
    by apply forallb_in_universe.
  - intros (arg & Hin & Hout). split; [|done].
    apply Predicate___call___deferred; [done|].
    apply not_true_is_false. intros Hall.
    pose proof (proj1 (forallb_in_universe _ _) Hall _ Hin). congruence.
Qed.

(** ** The recursion depth of [interpret] *)

Lemma M_le_refl {A} (m : M A) : m ⊑ m.
Proof. by intros st r st' H _. Qed.

Lemma M_le_trans {A} (m1 m2 m3 : M A) : m1 ⊑ m2 → m2 ⊑ m3 → m1 ⊑ m3.
Proof. intros H12 H23 st r st' H Hr. apply H23; [|done]. by apply H12. Qed.

Lemma M_le_bind {A B} (m m' : M A) (k k' : A → M B) :
  m ⊑ m' → (∀ a, k a ⊑ k' a) → (m ≫= k) ⊑ (m' ≫= k').
Proof.
  intros Hm Hk st r st' [(a & st1 & H1 & H2) | (e & H1 & ->)]%bind_inv Hr.
  - assert (m' st = (Ok a, st1)) as H1' by (by apply Hm).
    rewrite (bind_Ok _ _ _ _ _ H1'). exact (Hk a _ _ _ H2 Hr).
  - apply bind_Raise. apply (Hm _ _ _ H1). intros [= ->]. by apply Hr.
Qed.

Lemma M_le_raise {A} (m : M A) : raise RecursionError ⊑ m.
Proof. by intros st r st' [= <- <-] Hr. Qed.

Section Loops_mono.
Context (I I' : Formula → nat → M (bool * nat)).
Hypothesis HI : ∀ f b, I f b ⊑ I' f b.

Lemma Forall_loop_mono scope binder elements b :
  Forall_loop (I scope) binder b elements ⊑ Forall_loop (I' scope) binder b elements.
Proof.
  induction elements as [|e es IH]; cbn [Forall_loop]; [apply M_le_refl|].
  apply M_le_bind; [apply M_le_refl|]. intros _.
  apply M_le_bind; [apply HI|]. intros [[] m]; cbn [negb]; [apply IH|apply M_le_refl].
Qed.

Lemma Exists_loop_mono scope binder elements b :
  Exists_loop (I scope) binder b elements ⊑ Exists_loop (I' scope) binder b elements.
Proof.
  revert b. induction elements as [|e es IH]; intros b; cbn [Exists_loop];
    [apply M_le_refl|].
  apply M_le_bind; [apply M_le_refl|]. intros _.
  apply M_le_bind; [apply HI|]. intros [[] m]; [apply M_le_refl|apply IH].
Qed.

Lemma resolve_loop_mono items arglist b :
  resolve_loop I items arglist b ⊑ resolve_loop I' items arglist b.
Proof.
  revert arglist b. induction items as [|[i arg] items IH]; intros arglist b;
    cbn [resolve_loop]; [apply M_le_refl|].
  apply M_le_bind; [apply M_le_refl|]. intros u.
  destruct (in_universe arg u); [apply IH|].
  destruct arg as [s|t|f|tv];
    try (apply M_le_bind; [apply M_le_refl|]; intros d;
         destruct (lookup_arg _ d); [apply IH|];
         apply M_le_bind; [apply M_le_refl|]; intros fr;
         destruct (lookup_arg _ fr); [apply IH|apply M_le_refl]).
  apply M_le_bind; [apply HI|]. intros [tv m]. apply IH.
Qed.
End Loops_mono.

Lemma interpret_body_mono d d' :
  (∀ f b, interpret d f b ⊑ interpret d' f b) →
  ∀ f b, interpret (S d) f b ⊑ interpret (S d') f b.
Proof.
  intros IH f b. destruct f; cbn [interpret]; try apply M_le_refl.
  - apply M_le_bind; [apply IH|]. intros [b1 m1].
    apply M_le_bind; [apply IH|]. intros [b2 m2]. apply M_le_refl.
  - apply M_le_bind; [apply IH|]. intros [b1 m1].
    apply M_le_bind; [apply IH|]. intros [b2 m2]. apply M_le_refl.
  - apply M_le_bind; [apply IH|]. intros [[] m1]; [apply IH|apply M_le_refl].
  - apply M_le_bind; [apply IH|]. intros [tv m1]. apply M_le_refl.
  - apply M_le_bind; [apply M_le_refl|]. intros u. by apply Forall_loop_mono.
  - apply M_le_bind; [apply M_le_refl|]. intros u. by apply Exists_loop_mono.
  - unfold Predicate_interpret.
    apply M_le_bind; [by apply resolve_loop_mono|]. intros [arglist m].
    apply M_le_bind; [apply M_le_refl|]. intros f. apply IH.
Qed.

Lemma interpret_step d f b : interpret d f b ⊑ interpret (S d) f b.
Proof.
  revert f b. induction d as [|d IH]; intros f b.
  - apply M_le_raise.
  - by apply interpret_body_mono.
Qed.

(** More depth never changes an outcome that was reached. *)
Lemma interpret_mono d d' f b : (d ≤ d')%nat → interpret d f b ⊑ interpret d' f b.
Proof.
  induction 1 as [|d' _ IH]; [apply M_le_refl|].
  eapply M_le_trans; [exact IH|apply interpret_step].
Qed.

(** ** What [interpret] changes *)

Section Loops_preserve.
Context (I : Formula → nat → M (bool * nat)).
Hypothesis HI : ∀ f b, preserves (I f b).

Lemma Forall_loop_preserves scope binder elements b :
  preserves (Forall_loop (I scope) binder b elements).
Proof.
  induction elements as [|e es IH]; cbn [Forall_loop]; [apply preserves_mret|].
  apply preserves_bind; [apply preserves_setitem|]. intros _.
  apply preserves_bind; [apply HI|]. intros [[] m]; cbn [negb];
    [apply IH|apply preserves_mret].
Qed.

Lemma Exists_loop_preserves scope binder elements b :
  preserves (Exists_loop (I scope) binder b elements).
Proof.
  revert b. induction elements as [|e es IH]; intros b; cbn [Exists_loop];
    [apply preserves_mret|].
  apply preserves_bind; [apply preserves_setitem|]. intros _.
  apply preserves_bind; [apply HI|]. intros [[] m];
    [apply preserves_mret|apply IH].
Qed.

Lemma resolve_loop_preserves items arglist b :
  preserves (resolve_loop I items arglist b).
Proof.
  revert arglist b. induction items as [|[i arg] items IH]; intros arglist b;
    cbn [resolve_loop]; [apply preserves_mret|].
  apply preserves_bind; [apply preserves_gets|]. intros u.
  destruct (in_universe arg u); [apply IH|].
  destruct arg as [s|t|f|tv];
    try (apply preserves_bind; [apply preserves_gets|]; intros d;
         destruct (lookup_arg _ d); [apply IH|];
         apply preserves_bind; [apply preserves_gets|]; intros fr;
         destruct (lookup_arg _ fr); [apply IH|apply preserves_raise]).
  apply preserves_bind; [apply HI|]. intros [tv m]. apply IH.
Qed.
End Loops_preserve.

(** Interpretation writes only to SATAssign objects (and allocates
    identities): universe, predicate registry, fact tables, free variables,
    knowledge base and output are as before, whatever the outcome. *)
Lemma interpret_preserves d f b : preserves (interpret d f b).
Proof.
  revert f b. induction d as [|d IH]; intros f b; [apply preserves_raise|].
  destruct f; cbn [interpret];
    try apply preserves_mret; try apply preserves_raise.
  - apply preserves_bind; [apply IH|]. intros [b1 m1].
    apply preserves_bind; [apply IH|]. intros [b2 m2]. apply preserves_mret.
  - apply preserves_bind; [apply IH|]. intros [b1 m1].
    apply preserves_bind; [apply IH|]. intros [b2 m2]. apply preserves_mret.
  - apply preserves_bind; [apply IH|]. intros [[] m1]; [apply IH|apply preserves_mret].
  - apply preserves_bind; [apply IH|]. intros [tv m1]. apply preserves_mret.
  - apply preserves_bind; [apply preserves_gets|]. intros u.
    by apply Forall_loop_preserves.
  - apply preserves_bind; [apply preserves_gets|]. intros u.
    by apply Exists_loop_preserves.
  - unfold Predicate_interpret.
    apply preserves_bind; [by apply resolve_loop_preserves|]. intros [arglist m].
    apply preserves_bind; [|intros f; apply IH].
    intros st r st' H. by apply Predicate___call___pure in H as [? _].
Qed.

Section Loops_same_object.
Context (I : Formula → nat → M (bool * nat)).
Hypothesis HI : ∀ f b, same_object b (I f b).

Lemma Forall_loop_same_object scope binder elements b :
  same_object b (Forall_loop (I scope) binder b elements).
Proof.
  induction elements as [|e es IH]; intros st tv m' st' H; cbn [Forall_loop] in H.
  - by injection H as _ <- _.
  - inv_bind H. inv_bind H. destruct x1 as [[] m1]; cbn [negb] in H.
    + by eapply IH.
    + injection H as _ <- _. by eapply HI.
Qed.

Lemma Exists_loop_same_object scope binder elements b :
  same_object b (Exists_loop (I scope) binder b elements).
Proof.
  induction elements as [|e es IH]; intros st tv m' st' H; cbn [Exists_loop] in H.
  - by injection H as _ <- _.
  - inv_bind H. inv_bind H. destruct x1 as [tv1 m1].
    assert (m1 = b) as -> by (by eapply HI).
    destruct tv1.
    + by injection H as _ <- _.
    + by eapply IH.
Qed.

Lemma resolve_loop_same_object items arglist b st arglist' m' st' :
  resolve_loop I items arglist b st = (Ok (arglist', m'), st') → m' = b.
Proof.
  revert arglist st. induction items as [|[i arg] items IH]; intros arglist st H;
    cbn [resolve_loop] in H.
  - by injection H as _ <- _.
  - inv_bind H. destruct (in_universe arg x); [by eapply IH|].
    destruct arg as [s|t|f|tv];
      try (inv_bind H; destruct (lookup_arg _ x1); [by eapply IH|];
           inv_bind H; destruct (lookup_arg _ x3); [by eapply IH|discriminate]).
    inv_bind H. destruct x1 as [tv m1].
    assert (m1 = b) as -> by (by eapply HI). by eapply IH.
Qed.
End Loops_same_object.

Lemma interpret_same_object d f b : same_object b (interpret d f b).
Proof.
  revert f b. induction d as [|d IH]; intros f b st tv m' st' H; [discriminate|].
  destruct f; cbn [interpret] in H; try discriminate.
  - by injection H as _ <- _.
  - by injection H as _ <- _.
  - inv_bind H. destruct x as [b1 m1]. inv_bind H. destruct x as [b2 m2].
    injection H as _ <- _.
    assert (m1 = b) as -> by (by eapply IH). by eapply IH.
  - inv_bind H. destruct x as [b1 m1]. inv_bind H. destruct x as [b2 m2].
    injection H as _ <- _.
    assert (m1 = b) as -> by (by eapply IH). by eapply IH.
  - inv_bind H. destruct x as [b1 m1].
    assert (m1 = b) as -> by (by eapply IH).
    destruct b1; [by eapply IH|by injection H as _ <- _].
  - inv_bind H. destruct x as [b1 m1]. injection H as _ <- _. by eapply IH.
  - inv_bind H. by eapply Forall_loop_same_object.
  - inv_bind H. by eapply Exists_loop_same_object.
  - unfold Predicate_interpret in H. inv_bind H. destruct x as [arglist m1].
    assert (m1 = b) as -> by (by eapply resolve_loop_same_object).
    inv_bind H. by eapply IH.
Qed.

(** ** Outcomes of interpretation *)

Lemma Interp_at f b st r st' :
  Interp f b st r st' →
  ∃ d0, ∀ d, (d0 ≤ d)%nat → interpret d f b st = (r, st').
Proof.
  intros (d0 & H & Hr). exists d0. intros d Hd.
  by apply (interpret_mono d0 d f b Hd).
Qed.

Lemma Interp_deterministic f b st r1 st1 r2 st2 :
  Interp f b st r1 st1 → Interp f b st r2 st2 → r1 = r2 ∧ st1 = st2.
Proof.
  intros (d1 & H1)%Interp_at (d2 & H2)%Interp_at.
  specialize (H1 (d1 `max` d2)%nat ltac:(lia)).
  specialize (H2 (d1 `max` d2)%nat ltac:(lia)).
  rewrite H1 in H2. by injection H2.
Qed.

Lemma Interp_S f b st r st' d :
  interpret d f b st = (r, st') → r ≠ Raise RecursionError → Interp f b st r st'.
Proof. intros. by exists d. Qed.

(** ** Connectives *)

Lemma combine_depth op b1 res2 :
  combine op b1 res2 ≠ Raise RecursionError ↔ res2 ≠ Raise RecursionError.
Proof. destruct res2 as [[b2 m2]|e]; simpl; naive_solver. Qed.

Section BinConn.
Context (op : bool → bool → bool) (conn : Formula → Formula → Formula).
Hypothesis conn_interpret : ∀ d l r b,
  interpret (S d) (conn l r) b =
    ('(b1, m1) ← interpret d l b;
     '(b2, m2) ← interpret d r m1;
     mret (op b1 b2, m2)).

Lemma BinConn_interpret l r bindings st b1 m1 st1 res st' :
  Interp l bindings st (Ok (b1, m1)) st1 →
  Interp (conn l r) bindings st res st'
  ↔ ∃ res2, Interp r m1 st1 res2 st' ∧ res = combine op b1 res2.
Proof.
  intros Hl. split.
  - intros ([|d] & H & Hres); [by injection H as <- _|].
    rewrite conn_interpret in H.
    apply bind_inv in H as [([b1' m1'] & st1' & Hl' & H) | (e & Hl' & ->)].
    + destruct (Interp_deterministic _ _ _ _ _ _ _ Hl (Interp_S _ _ _ _ _ _ Hl' ltac:(done)))
        as [[= <- <-] <-].
      apply bind_inv in H as [([b2 m2] & st2 & Hr & H) | (e & Hr & ->)].
      * injection H as <- <-. exists (Ok (b2, m2)). split; [by exists d|done].
      * exists (Raise e). split; [by exists d|done].
    + by destruct (Interp_deterministic _ _ _ _ _ _ _ Hl (Interp_S _ _ _ _ _ _ Hl' Hres)).
  - intros (res2 & Hr & ->).
    apply Interp_at in Hl as (dl & Hl). destruct Hr as (dr & Hr & Hres2).
    exists (S (dl `max` dr)). split; [|by apply combine_depth].
    rewrite conn_interpret.
    erewrite bind_Ok; [|apply Hl; lia].
    pose proof (interpret_mono dr (dl `max` dr) r m1 ltac:(lia) _ _ _ Hr Hres2) as Hr'.
    destruct res2 as [[b2 m2]|e]; simpl.
    + by rewrite (bind_Ok _ _ _ _ _ Hr').
    + by rewrite (bind_Raise _ _ _ _ _ Hr').
Qed.
End BinConn.

(** C3. Once the left operand of And(l, r) or Or(l, r) has produced
    (b1, m1), every outcome of the connective is the outcome of interpreting
    the right operand under m1 in the state the left operand left behind,
    with truth value b1 and b2 (resp. b1 or b2) and the right operand's
    bindings m2: the right operand is interpreted whatever b1 is, and an
    exception of the right operand is the connective's exception. *)
Theorem And_Or_evaluate_both (l r : Formula) (bindings : nat) (st : State)
    (b1 : bool) (m1 : nat) (st1 : State) :
  Interp l bindings st (Ok (b1, m1)) st1 →
  ∀ res st',
    (Interp (_And l r) bindings st res st'
       ↔ ∃ res2, Interp r m1 st1 res2 st' ∧ res = combine andb b1 res2)
    ∧ (Interp (_Or l r) bindings st res st'
       ↔ ∃ res2, Interp r m1 st1 res2 st' ∧ res = combine orb b1 res2).
Proof.
  intros Hl res st'. split.
  - by apply (BinConn_interpret andb _And).
  - by apply (BinConn_interpret orb _Or).
Qed.

(** C4. Once the left operand of Implies(l, r) has produced (b, m): if b is
    false the implication is (true, m) in the state the left operand left
    behind, for every right operand (which is not interpreted); if b is
    true the outcomes of the implication are exactly the outcomes of the
    right operand under m. *)
Theorem Implies_short_circuit (l r : Formula) (bindings : nat) (st : State)
    (b : bool) (m : nat) (st1 : State) :
  Interp l bindings st (Ok (b, m)) st1 →
  (b = false → Interp (_Implies l r) bindings st (Ok (true, m)) st1)
  ∧ (b = true → ∀ res st',
       Interp (_Implies l r) bindings st res st' ↔ Interp r m st1 res st').
Proof.
  intros Hl. split.
  - intros ->. destruct Hl as (d & Hl & _). exists (S d). split; [|done].
    cbn [interpret]. by rewrite (bind_Ok _ _ _ _ _ Hl).
  - intros -> res st'. split.
    + intros ([|d] & H & Hres); [by injection H as <- _|].
      cbn [interpret] in H.
      apply bind_inv in H as [([b' m'] & st1' & Hl' & H) | (e & Hl' & ->)].
      * destruct (Interp_deterministic _ _ _ _ _ _ _ Hl (Interp_S _ _ _ _ _ _ Hl' ltac:(done)))
          as [[= <- <-] <-].
        by exists d.
      * by destruct (Interp_deterministic _ _ _ _ _ _ _ Hl (Interp_S _ _ _ _ _ _ Hl' Hres)).
    + intros (dr & Hr & Hres). apply Interp_at in Hl as (dl & Hl).
      exists (S (dl `max` dr)). split; [|done].
      cbn [interpret]. erewrite bind_Ok; [|apply Hl; lia].
      by apply (interpret_mono dr (dl `max` dr) r m ltac:(lia)).
Qed.

(** ** Quantifiers *)

Lemma Forall_loop_all_true binder scope bindings pre st st1 :
  all_true binder scope bindings pre st st1 →
  ∃ d0, ∀ d rest, (d0 ≤ d)%nat →
    Forall_loop (interpret d scope) binder bindings (pre ++ rest) st
    = Forall_loop (interpret d scope) binder bindings rest st1.
Proof.
  induction 1 as [st|e es st m st1 st2 He _ (d2 & IH)].
  - by exists 0%nat.
  - apply Interp_at in He as (d1 & He). exists (d1 `max` d2)%nat.
    intros d rest Hd. cbn [app Forall_loop].
    erewrite bind_Ok; [|reflexivity].
    erewrite bind_Ok; [|apply He; lia].
    cbn [negb]. apply IH. lia.
Qed.

(** C2. Forall(binder, scope) walks the universe in order, binding the
    binder to each element: if the scope is true for the elements before
    [e] and false for [e], the result is (false, m) with m and the state
    exactly as the scope left them at [e] (no later element is tried, and m
    is the dictionary that was passed in); if the scope is true for every
    element the result is (true, bindings); over an empty universe the
    result is (true, bindings) and nothing changes. *)
Theorem Forall_interpret_search (binder : string) (scope : Formula) (bindings : nat)
    (st : State) :
  (∀ pre e post st1 m st2,
     universe st = pre ++ e :: post →
     all_true binder scope bindings pre st st1 →
     Interp scope bindings (bound bindings binder e st1) (Ok (false, m)) st2 →
     Interp (Forall binder scope) bindings st (Ok (false, m)) st2 ∧ m = bindings)
  ∧ (∀ st1,
       all_true binder scope bindings (universe st) st st1 →
       Interp (Forall binder scope) bindings st (Ok (true, bindings)) st1)
  ∧ (universe st = [] →
     Interp (Forall binder scope) bindings st (Ok (true, bindings)) st).
Proof.
  split; [|split].
  - intros pre e post st1 m st2 Hu Hpre He. split.
    + apply Forall_loop_all_true in Hpre as (d0 & Hpre).
      apply Interp_at in He as (d1 & He).
      exists (S (d0 `max` d1)). split; [|done].
      cbn [interpret]. erewrite bind_Ok; [|reflexivity]. rewrite Hu.
      rewrite Hpre by lia. cbn [Forall_loop].
      erewrite bind_Ok; [|reflexivity].
      erewrite bind_Ok; [|apply He; lia]. done.
    + destruct He as (d & He & _).
      by apply interpret_same_object in He.
  - intros st1 (d0 & Hall)%Forall_loop_all_true.
    exists (S d0). split; [|done].
    cbn [interpret]. erewrite bind_Ok; [|reflexivity].
    specialize (Hall d0 [] ltac:(lia)). rewrite app_nil_r in Hall.
    by rewrite Hall.
  - intros Hu. exists 1%nat. split; [|done].
    cbn [interpret]. erewrite bind_Ok; [|reflexivity]. by rewrite Hu.
Qed.

(** Over an empty universe Exists is false, and nothing changes. *)
Lemma Exists_empty_universe binder scope bindings st :
  universe st = [] →
  Interp (Exists binder scope) bindings st (Ok (false, bindings)) st.
Proof.
  intros Hu. exists 1%nat. split; [|done].
  cbn [interpret]. erewrite bind_Ok; [|reflexivity]. by rewrite Hu.
Qed.

(** ** Knowledge base *)

Lemma with_free_bindings_contents st :
  contents (with_free_bindings st) (next_id st) = free st.
Proof.
  unfold contents, with_free_bindings, SATAssign_new.
  erewrite bind_Ok; [|reflexivity]. erewrite bind_Ok; [|reflexivity].
  cbn [snd mret M_ret dicts set_dicts set_next_id].
  by rewrite lookup_insert_eq.
Qed.

Lemma with_free_bindings_world st : world (with_free_bindings st) = world st.
Proof. done. Qed.


(** ** Resolution of the arguments of a deferred application *)

Lemma spec_resolve_arg_unbound I arg bindings st :
  has_resolution st bindings arg = false →
  spec_resolve_arg I arg bindings st
  = (Raise (ValueError (CannotInterpret arg (universe st) (free st))), st).
Proof.
  unfold has_resolution. rewrite !orb_false_iff.
  intros [[[Hu Hf] Hb%bool_decide_eq_false] Hfr%bool_decide_eq_false].
  rewrite <-eq_None_not_Some in Hb, Hfr.
  unfold spec_resolve_arg. erewrite bind_Ok; [|reflexivity]. rewrite Hu.
  destruct arg as [s|t|f|tv]; try discriminate Hf;
    (erewrite bind_Ok; [|reflexivity]); (erewrite bind_Ok; [|reflexivity]);
    by rewrite Hb, Hfr.
Qed.

Section Resolve.
Context (I : Formula → nat → M (bool * nat)).

(** One iteration of the loop is the resolution of one argument, written
    back at its index. *)
Lemma resolve_loop_cons i arg items arglist bindings st :
  arglist !! i = Some arg →
  resolve_loop I ((i, arg) :: items) arglist bindings st
  = match spec_resolve_arg I arg bindings st with
    | (Ok (v, b), st1) => resolve_loop I items (<[i := v]> arglist) b st1
    | (Raise e, st1) => (Raise e, st1)
    end.
Proof.
  intros Hi. cbn [resolve_loop].
  unfold spec_resolve_arg, mbind, M_bind, mret, M_ret, gets, raise.
  destruct (in_universe arg (universe st)).
  { by rewrite list_insert_id. }
  destruct arg as [s|t|f|tv];
    try (destruct (lookup_arg _ (contents st bindings)); [done|];
         by destruct (lookup_arg _ (free st))).
  by destruct (I f bindings st) as [[[tv b]|e] st1].
Qed.

Lemma resolve_loop_resolve_args args done bindings st :
  resolve_loop I (imap (λ i arg, (length done + i, arg)%nat) args)
               (done ++ args) bindings st
  = ('(vs, bindings) ← spec_resolve_args I args bindings;
     mret (done ++ vs, bindings)) st.
Proof.
  revert done bindings st. induction args as [|arg args IH]; intros done bindings st.
  - done.
  - assert (∀ v b st,
      resolve_loop I (imap ((λ i arg, (length done + i, arg)%nat) ∘ S) args)
                   (done ++ v :: args) b st
      = ('(vs, b) ← spec_resolve_args I args b; mret (done ++ v :: vs, b)) st) as Hrest.
    { intros v b st0.
      rewrite (imap_ext _ (λ i arg, (length (done ++ [v]) + i, arg)%nat));
        [|intros i x _; simpl; rewrite length_app; simpl; f_equal; lia].
      rewrite (cons_middle v done args), app_assoc, IH.
      unfold mbind, M_bind.
      destruct (spec_resolve_args I args b st0) as [[[vs b']|e] st1]; [|done].
      by rewrite <-app_assoc. }
    cbn [imap spec_resolve_args].
    rewrite resolve_loop_cons
      by (by rewrite Nat.add_0_r, lookup_app_r, Nat.sub_diag by lia).
    unfold mbind, M_bind.
    destruct (spec_resolve_arg I arg bindings st) as [[[v b]|e] st1]; [|done].
    rewrite Nat.add_0_r, insert_app_r_alt, Nat.sub_diag by lia.
    cbn [insert list_insert]. rewrite Hrest.
    unfold mbind, M_bind.
    by destruct (spec_resolve_args I args b st1) as [[[vs b']|e] st2].
Qed.

(** The in-place loop of Predicate.interpret computes the argument-wise
    resolution. *)
Lemma resolve_loop_enumerate args bindings st :
  resolve_loop I (enumerate args) args bindings st = spec_resolve_args I args bindings st.
Proof.
  pose proof (resolve_loop_resolve_args args [] bindings st) as H.
  etrans; [exact H|]. unfold mbind, M_bind.
  by destruct (spec_resolve_args I args bindings st) as [[[vs b]|e] st1].
Qed.
End Resolve.

Lemma spec_resolve_args_unbound I pre arg post bindings st vs b st1 :
  spec_resolve_args I pre bindings st = (Ok (vs, b), st1) →
  has_resolution st1 b arg = false →
  spec_resolve_args I (pre ++ arg :: post) bindings st
  = (Raise (ValueError (CannotInterpret arg (universe st1) (free st1))), st1).
Proof.
  revert bindings st vs. induction pre as [|a pre IH]; intros bindings st vs Hpre Harg.
  - injection Hpre as <- <- <-. cbn [app spec_resolve_args].
    apply bind_Raise. by apply spec_resolve_arg_unbound.
  - cbn [app spec_resolve_args] in *.
    apply bind_inv in Hpre as [([v b0] & st0 & Ha & Hpre) | (e & _ & [=])].
    rewrite (bind_Ok _ _ _ _ _ Ha).
    apply bind_inv in Hpre as [([vs0 b1] & st2 & Hpre & [= <- <- <-]) | (e & _ & [=])].
    apply bind_Raise. by eapply IH.
Qed.

(** Interpreting a deferred predicate application: resolve the arguments,
    call the predicate again on the resolved arguments and interpret what
    the call returns. *)
Lemma interpret_PredApp d fn args bindings st :
  interpret (S d) (PredApp fn args) bindings st
  = ('(arglist, bindings) ← spec_resolve_args (interpret d) args bindings;
     f ← Predicate___call__ fn arglist;
     interpret d f bindings) st.
Proof.
  cbn [interpret]. unfold Predicate_interpret, mbind at 1 3, M_bind at 1 3.
  by rewrite resolve_loop_enumerate.
Qed.

(** C7 (as amended). Interpreting a deferred predicate application resolves
    the raw arguments from left to right, each by the first rule that
    applies (universe member: kept; nested formula or application:
    interpreted; local binding; free variable), then calls the predicate on
    the resolved arguments and interprets the result.  When the arguments
    before [arg] resolve and no rule applies to [arg], interpretation raises
    the error that reports [arg] with the universe and the free variables,
    in the state those earlier arguments left behind. *)
Theorem Predicate_interpret_resolution (d : nat) (fn : Predicate) (args : list Arg)
    (bindings : nat) (st : State) :
  interpret (S d) (PredApp fn args) bindings st
  = ('(arglist, bindings) ← spec_resolve_args (interpret d) args bindings;
     f ← Predicate___call__ fn arglist;
     interpret d f bindings) st
  ∧ ∀ pre arg post vs b st1,
      args = pre ++ arg :: post →
      resolve_loop (interpret d) (enumerate pre) pre bindings st = (Ok (vs, b), st1) →
      has_resolution st1 b arg = false →
      interpret (S d) (PredApp fn args) bindings st
      = (Raise (ValueError (CannotInterpret arg (universe st1) (free st1))), st1).
Proof.
  split; [apply interpret_PredApp|].
  intros pre arg post vs b st1 -> Hpre Harg.
  rewrite resolve_loop_enumerate in Hpre.
  rewrite interpret_PredApp. apply bind_Raise.
  by eapply spec_resolve_args_unbound.
Qed.

(** ** Reset *)

(** C6 (as amended). clear_all() empties the universe, the predicate
    registry, the free variables and the knowledge base; the fact table of
    every predicate object is what it was. *)
Theorem clear_all_stores (st : State) :
  ∃ st', clear_all st = (Ok tt, st')
         ∧ universe st' = [] ∧ predicates st' = []
         ∧ free st' = ∅ ∧ knowledge_base st' = []
         ∧ ∀ p, _truths st' p = _truths st p.
Proof. eexists. by repeat split. Qed.

(** ** Declaring a predicate *)

(** C8 (as amended). Predicate construction succeeds exactly when the arity
    is below 3, negative arities included: it then registers a predicate
    with that arity and an empty fact table; for an arity of 3 or more the
    assertion fails and nothing changes. *)
Theorem Predicate_init_arity (arity : Z) (nm : string) (st : State) :
  ((arity < 3)%Z →
   ∃ self st', Predicate___init__ arity nm st = (Ok self, st')
               ∧ self = mkPredicate (next_id st) arity nm
               ∧ _truths st' self = []
               ∧ predicates st' = predicates st ++ [self])
  ∧ ((3 ≤ arity)%Z →
     Predicate___init__ arity nm st
     = (Raise (AssertionError "Only allowing up to binary arguments."), st)).
Proof.
  unfold Predicate___init__. split; intros Harity.
  - rewrite bool_decide_eq_true_2 by done. cbn [assert].
    eexists _, _. split; [reflexivity|]. split; [done|]. split; [|done].
    unfold _truths. cbn [truths set_truths set_predicates set_next_id pred_id].
    by rewrite lookup_insert_eq.
  - rewrite bool_decide_eq_false_2 by lia. done.
Qed.

(** ** Binding a free variable *)

Lemma Term___eq___refl t : nonempty (name t) = true → Term___eq__ t (ATerm t) = true.
Proof. intros Hn. simpl. rewrite Hn. apply String.eqb_refl. Qed.

(** Constructing a Term with a non-empty name: the new object is a member
    of the universe afterwards, registered now if it was not one before. *)
Lemma Term___init___named nm st :
  nonempty nm = true →
  let self := mkTerm (next_id st) nm in
  ∃ st', Term___init__ nm st = (Ok self, st')
         ∧ free st' = free st
         ∧ in_universe (ATerm self) (universe st') = true
         ∧ universe st'
           = if in_universe (ATerm self) (universe st) then universe st
             else universe st ++ [self].
Proof.
  intros Hne self. unfold Term___init__.
  erewrite bind_Ok; [|reflexivity]. erewrite bind_Ok; [|reflexivity].
  cbn [universe set_next_id]. fold self. rewrite Hne. cbn [andb].
  destruct (in_universe (ATerm self) (universe st)) eqn:Hin; cbn [negb].
  - eexists. by repeat split.
  - eexists. split; [reflexivity|]. repeat split.
    cbn [universe set_universe set_stdout set_next_id].
    unfold in_universe. rewrite existsb_app. apply orb_true_iff. right.
    cbn [existsb]. by rewrite Term___eq___refl.
Qed.

(** C10. Binding a free variable to a non-empty name stores a Term of that
    name which, afterwards, is a member of the universe; when it was not a
    member before, the universe has grown by exactly that Term, and
    otherwise the universe is as it was. *)
Theorem FreeVars_setitem_registers (key val : string) (st : State) :
  val ≠ "" →
  ∃ t st', FreeVars___setitem__ key val st = (Ok tt, st')
           ∧ free st' !! key = Some t
           ∧ name t = val
           ∧ in_universe (ATerm t) (universe st') = true
           ∧ universe st'
             = if in_universe (ATerm t) (universe st) then universe st
               else universe st ++ [t].
Proof.
  intros Hval.
  assert (nonempty val = true) as Hne.
  { unfold nonempty. by rewrite (proj2 (String.eqb_neq val "")). }
  unfold FreeVars___setitem__. erewrite bind_Ok; [|reflexivity].
  set (warn := if decide (is_Some (free st !! key)) then _ else _).
  assert (∃ st0, warn st = (Ok tt, st0) ∧ universe st0 = universe st
                 ∧ next_id st0 = next_id st) as (st0 & Hwarn & Hu & Hid).
  { subst warn. destruct (decide (is_Some (free st !! key))); by eexists. }
  rewrite (bind_Ok _ _ _ _ _ Hwarn).
  destruct (Term___init___named val st0 Hne) as (st1 & Hinit & _ & Hin & Hgrow).
  rewrite (bind_Ok _ _ _ _ _ Hinit). rewrite Hu, Hid in *.
  eexists _, _. split; [reflexivity|].
  cbn [free set_free universe]. rewrite lookup_insert_eq. by repeat split.
Qed.

(** ** Operators *)

(** C9. Applied to a Term, the connective operators [&], [|] and [~] raise
    for every operand ([&] and [|] with the ValueError of [__and__] and
    [__or__], as does [__not__] when called); applied to a Predicate, the
    comparisons [==], [!=], [<], [>], [<=] and [>=] raise for every
    operand. *)
Theorem Term_and_Predicate_operators_raise :
  (∀ (op : Composition) (t : Term) (other : Value),
     ∃ e, Term_operator op t other = Raise e)
  ∧ (∀ (t : Term) (other : Value),
       Term_operator BitAnd t other
         = Raise (ValueError (Msg "And is not defined for terms"))
       ∧ Term_operator BitOr t other
         = Raise (ValueError (Msg "Or is not defined for terms"))
       ∧ Term___not__ t other
         = Raise (ValueError (Msg "Not is not defined for terms")))
  ∧ (∀ (op : Comparison) (p : Predicate) (other : Value),
       ∃ e, Predicate_compare op p other = Raise e).
Proof.
  split; [|split].
  - intros [] t other; by eexists.
  - done.
  - intros [] p other; by eexists.
Qed.

(** * The module's own tests, replayed *)

Example tests_setup : (setup initial).1 = Ok PreReq.
Proof. vm_compute. reflexivity. Qed.

(** [assert len(universe) == 3] and [assert len(PreReq._truths) == 2]. *)
Example tests_sizes :
  length (universe after_setup) = 3%nat ∧ length (_truths after_setup PreReq) = 2%nat.
Proof. cbv zeta. repeat apply conj; vm_compute; reflexivity. Qed.

(** [PreReq("MATH22", "MATH121")] is evaluated at once; [PreReq("MATH22",
    "x")] is not. *)
Example tests_call :
  (Predicate___call__ PreReq [M22; M121] after_setup).1 = Ok Top
  ∧ (Predicate___call__ PreReq [M22; AStr "x"] after_setup).1 = Ok PreReq_22_x.
Proof. cbv zeta. repeat apply conj; vm_compute; reflexivity. Qed.

(** [F.interpret()] raises while "x" is unbound, is satisfied once
    [free["x"] = "MATH121"], and is not after [free["x"] = "MATH456"]; the
    returned dictionary is empty both times. *)
Example tests_free_variable :
  (interpret 5 PreReq_22_x (default_bindings PreReq_22_x) after_setup).1
    = Raise (ValueError (CannotInterpret (AStr "x") (universe after_setup) ∅))
  ∧ (let st := (FreeVars___setitem__ "x" "MATH121" after_setup).2 in
     let r := interpret 5 PreReq_22_x (default_bindings PreReq_22_x) st in
     r.1 = Ok (true, 0%nat) ∧ contents r.2 0 = ∅)
  ∧ (let st := ((FreeVars___setitem__ "x" "MATH121";;
                 FreeVars___setitem__ "x" "MATH456") after_setup).2 in
     let r := interpret 5 PreReq_22_x (default_bindings PreReq_22_x) st in
     r.1 = Ok (false, 0%nat) ∧ contents r.2 0 = ∅).
Proof. cbv zeta. repeat apply conj; vm_compute; reflexivity. Qed.

(** [Forall("y", PreReq("y", "MATH121"))] is not satisfied,
    [Exists("y", PreReq("y", "MATH121"))] is, with witness MATH22. *)
Example tests_quantifiers :
  (interpret 5 (Forall "y" PreReq_y_121) 7 after_setup).1 = Ok (false, 7%nat)
  ∧ (let r := interpret 5 (Exists "y" PreReq_y_121) 8 after_setup in
     r.1 = Ok (true, 8%nat) ∧ name <$> contents r.2 8 !! "y" = Some "MATH22").
Proof. cbv zeta. repeat apply conj; vm_compute; reflexivity. Qed.

(** Anti-reflexivity is accepted; transitivity is rejected with the
    evidence x = MATH21, y = MATH22, z = MATH121. *)
Example tests_facts :
  (let r := Forall_fact 10 "x" (_Not PreReq_x_x) (Some "anti-reflexivity") after_setup in
   r.1 = Ok tt
   ∧ knowledge_base r.2 = [(Forall "x" (_Not PreReq_x_x), Some "anti-reflexivity")])
  ∧ ∃ evidence,
      (Forall_fact 10 "x" transitive None after_setup).1
        = Raise (ValueError (Inconsistent (Forall "x" transitive) evidence))
      ∧ name <$> evidence !! "x" = Some "MATH21"
      ∧ name <$> evidence !! "y" = Some "MATH22"
      ∧ name <$> evidence !! "z" = Some "MATH121".
Proof.
  cbv zeta. split; [split; vm_compute; reflexivity|].
  eexists. split; [vm_compute; reflexivity|].
  repeat apply conj; vm_compute; reflexivity.
Qed.

(** The rejected fact leaves the knowledge base empty. *)
Example tests_rejected_fact :
  knowledge_base (Forall_fact 10 "x" transitive None after_setup).2 = [].
Proof. vm_compute. reflexivity. Qed.

(** A false left operand does not keep a conjunction from interpreting its
    right operand, here a quantifier that leaves its witness in the
    bindings; an implication with the same operands leaves none. *)
Example connectives_and_bindings :
  (let r := interpret 10 (_And Bot (Exists "y" PreReq_y_121)) 3 after_setup in
   r.1 = Ok (false, 3%nat) ∧ name <$> contents r.2 3 !! "y" = Some "MATH22")
  ∧ (let r := interpret 10 (_Implies Bot (Exists "y" PreReq_y_121)) 5 after_setup in
     r.1 = Ok (true, 5%nat) ∧ contents r.2 5 !! "y" = None).
Proof. cbv zeta. repeat apply conj; vm_compute; reflexivity. Qed.

(** [G = Exists("x", Exists("y", PreReq("x", next("y"))))] cannot be
    interpreted: applications of functions are not implemented. *)
Example tests_function_application :
  (interpret 10 (Exists "x" (Exists "y" PreReq_x_next_y)) 8 after_setup).1
  = Raise (ValueError (Msg "Not yet implemented")).
Proof. vm_compute. reflexivity. Qed.

(** * Instances of the theorems, and counterexamples *)

(** C1 at [PreReq("MATH22", "MATH121")], evaluated at once, and at
    [PreReq("MATH22", "x")], deferred, in the state of the tests. *)
Lemma Predicate_call_eager_or_deferred_witness :
  Z.of_nat (length [M22; M121]) = arity PreReq
  ∧ (∀ arg, arg ∈ [M22; M121] → in_universe arg (universe after_setup) = true)
  ∧ (∃ ts st',
       Predicate___call__ PreReq [M22; M121] after_setup
         = (Ok (if in_truths ts (_truths after_setup PreReq) then Top else Bot), st')
       ∧ Forall2 coerced [M22; M121] ts
       ∧ world st' = world after_setup ∧ dicts st' = dicts after_setup)
  ∧ (∃ arg, arg ∈ [M22; AStr "x"] ∧ in_universe arg (universe after_setup) = false)
  ∧ Predicate___call__ PreReq [M22; AStr "x"] after_setup
    = (Ok (PredApp PreReq [M22; AStr "x"]), after_setup).
Proof.
  assert (Z.of_nat (length [M22; M121]) = arity PreReq) as Hlen by reflexivity.
  assert (∀ arg, arg ∈ [M22; M121] → in_universe arg (universe after_setup) = true)
    as Hall.
  { apply forallb_in_universe. vm_compute. reflexivity. }
  assert (∃ arg, arg ∈ [M22; AStr "x"] ∧ in_universe arg (universe after_setup) = false)
    as Hsome.
  { exists (AStr "x"). split; [|vm_compute; reflexivity].
    apply elem_of_cons. right. apply elem_of_cons. by left. }
  split; [exact Hlen|]. split; [exact Hall|]. split; [|split; [exact Hsome|]].
  - exact (proj1 (Predicate_call_eager_or_deferred PreReq [M22; M121] after_setup Hlen)
             Hall).
  - exact (proj1 (proj2 (Predicate_call_eager_or_deferred PreReq [M22; AStr "x"]
                           after_setup Hlen) Hsome)).
Defined.

(** C2 at [Forall("y", PreReq("y", "MATH121"))], whose scope the first
    element, MATH21, falsifies, and at [Forall("x", ~PreReq("x", "x"))],
    whose scope every element satisfies. *)
Lemma Forall_interpret_search_witness :
  (∃ st2,
     universe after_setup
       = [] ++ mkTerm 11 "MATH21" :: [mkTerm 12 "MATH22"; mkTerm 14 "MATH121"]
     ∧ all_true "y" PreReq_y_121 7 [] after_setup after_setup
     ∧ Interp PreReq_y_121 7 (bound 7 "y" (mkTerm 11 "MATH21") after_setup)
              (Ok (false, 7%nat)) st2
     ∧ Interp (Forall "y" PreReq_y_121) 7 after_setup (Ok (false, 7%nat)) st2)
  ∧ (∃ st1,
       all_true "x" (_Not PreReq_x_x) 7 (universe after_setup) after_setup st1
       ∧ Interp (Forall "x" (_Not PreReq_x_x)) 7 after_setup (Ok (true, 7%nat)) st1).
Proof.
  assert (universe after_setup
          = [] ++ mkTerm 11 "MATH21" :: [mkTerm 12 "MATH22"; mkTerm 14 "MATH121"])
    as Hu by (vm_compute; reflexivity).
  split.
  - exists (interpret 5 PreReq_y_121 7 (bound 7 "y" (mkTerm 11 "MATH21") after_setup)).2.
    pose proof (all_true_nil "y" PreReq_y_121 7 after_setup) as Hpre.
    assert (Interp PreReq_y_121 7 (bound 7 "y" (mkTerm 11 "MATH21") after_setup)
              (Ok (false, 7%nat))
              (interpret 5 PreReq_y_121 7 (bound 7 "y" (mkTerm 11 "MATH21") after_setup)).2)
      as He.
    { exists 5%nat. split; [vm_compute; reflexivity|discriminate]. }
    split; [exact Hu|]. split; [exact Hpre|]. split; [exact He|].
    exact (proj1 (proj1 (Forall_interpret_search "y" PreReq_y_121 7 after_setup)
                    _ _ _ _ _ _ Hu Hpre He)).
  - assert (∃ st1, all_true "x" (_Not PreReq_x_x) 7 (universe after_setup) after_setup st1)
      as [st1 Hall].
    { eexists. rewrite Hu. cbn [app].
      do 3 (eapply all_true_cons;
            [exists 5%nat; split; [vm_compute; reflexivity|discriminate]|]).
      apply all_true_nil. }
    exists st1. split; [exact Hall|].
    exact (proj1 (proj2 (Forall_interpret_search "x" (_Not PreReq_x_x) 7 after_setup))
             st1 Hall).
Defined.

(** C3 at [Bot & Top] and [Bot | Top]: the right operand decides the
    disjunction although the left one is false. *)
Lemma And_Or_evaluate_both_witness :
  Interp Bot 3 initial (Ok (false, 3%nat)) initial
  ∧ ∀ res st',
      (Interp (_And Bot Top) 3 initial res st'
         ↔ ∃ res2, Interp Top 3 initial res2 st' ∧ res = combine andb false res2)
      ∧ (Interp (_Or Bot Top) 3 initial res st'
         ↔ ∃ res2, Interp Top 3 initial res2 st' ∧ res = combine orb false res2).
Proof.
  assert (Interp Bot 3 initial (Ok (false, 3%nat)) initial) as Hl.
  { exists 1%nat. split; [reflexivity|discriminate]. }
  split; [exact Hl|].
  exact (And_Or_evaluate_both Bot Top 3 initial false 3 initial Hl).
Defined.

(** C4 at [Bot > PreReq]: the right operand, which cannot be interpreted
    at all, is never reached. *)
Lemma Implies_short_circuit_witness :
  Interp Bot 5 initial (Ok (false, 5%nat)) initial
  ∧ Interp (_Implies Bot (Pred PreReq)) 5 initial (Ok (true, 5%nat)) initial.
Proof.
  assert (Interp Bot 5 initial (Ok (false, 5%nat)) initial) as Hl.
  { exists 1%nat. split; [reflexivity|discriminate]. }
  split; [exact Hl|].
  exact (proj1 (Implies_short_circuit Bot (Pred PreReq) 5 initial false 5 initial Hl)
           eq_refl).
Defined.


(** C7 at [PreReq("MATH22", "x")] with "x" bound nowhere. *)
Lemma Predicate_interpret_resolution_witness :
  resolve_loop (interpret 4) (enumerate [M22]) [M22] 0 after_setup
    = (Ok ([M22], 0%nat), after_setup)
  ∧ has_resolution after_setup 0 (AStr "x") = false
  ∧ interpret 5 PreReq_22_x 0 after_setup
    = (Raise (ValueError (CannotInterpret (AStr "x") (universe after_setup)
                            (free after_setup))), after_setup).
Proof.
  assert (resolve_loop (interpret 4) (enumerate [M22]) [M22] 0 after_setup
          = (Ok ([M22], 0%nat), after_setup)) as Hpre by (vm_compute; reflexivity).
  assert (has_resolution after_setup 0 (AStr "x") = false) as Harg
    by (vm_compute; reflexivity).
  split; [exact Hpre|]. split; [exact Harg|].
  exact (proj2 (Predicate_interpret_resolution 4 PreReq [M22; AStr "x"] 0 after_setup)
           [M22] (AStr "x") [] [M22] 0%nat after_setup eq_refl Hpre Harg).
Defined.

(** C7 as stated fails: in [PreReq("x", next("y"))] with "x" and "y" bound,
    every argument has a resolution, and interpretation raises. *)
Lemma resolution_exactly_when_counterexample :
  forallb (has_resolution after_binding_x_y 0)
          [AStr "x"; AForm (FuncApp next [AStr "y"])] = true
  ∧ has_resolution after_binding_x_y 0 (AStr "y") = true
  ∧ Interp PreReq_x_next_y 0 after_binding_x_y
           (Raise (ValueError (Msg "Not yet implemented"))) after_binding_x_y.
Proof.
  split; [vm_compute; reflexivity|]. split; [vm_compute; reflexivity|].
  exists 5%nat. split; [vm_compute; reflexivity|discriminate].
Qed.

(** The same with names only: a free variable bound to the empty name has a
    resolution, the Term it resolves to is no element of the universe, and
    interpretation raises. *)
Example resolution_to_unnamed_term :
  let st := (FreeVars___setitem__ "x" "" after_setup).2 in
  forallb (has_resolution st 0) [M22; AStr "x"] = true
  ∧ (interpret 5 PreReq_22_x 0 st).1
    = Raise (ValueError (CannotInterpret (ATerm (mkTerm 15 "")) (universe st) (free st))).
Proof. cbv zeta. repeat apply conj; vm_compute; reflexivity. Qed.

(** C6 as stated fails: after [clear_all()] the universe and the registry
    are empty and PreReq still holds its two facts; once the two names are
    elements again, [PreReq("MATH22", "MATH121")] is Top as before. *)
Lemma clear_all_keeps_fact_tables_counterexample :
  let st := (clear_all after_setup).2 in
  let st' := ((Term___init__ "MATH22";; Term___init__ "MATH121") st).2 in
  universe st = [] ∧ predicates st = []
  ∧ (Predicate_get_satisfying PreReq st).1
    = Ok [[mkTerm 11 "MATH21"; mkTerm 12 "MATH22"];
          [mkTerm 13 "MATH22"; mkTerm 14 "MATH121"]]
  ∧ (Predicate___call__ PreReq [M22; M121] st').1 = Ok Top.
Proof. cbv zeta. repeat apply conj; vm_compute; reflexivity. Qed.

(** C8 as stated fails: the arity -1 is none of 0, 1, 2 and the predicate
    is constructed and registered. *)
Lemma Predicate_negative_arity_counterexample :
  let r := Predicate___init__ (-1) "P" initial in
  (-1 ∉ [0; 1; 2]) ∧ r.1 = Ok (mkPredicate 10 (-1) "P")
  ∧ predicates r.2 = [mkPredicate 10 (-1) "P"].
Proof.
  cbv zeta. split; [|split; vm_compute; reflexivity].
  intros Hin. repeat (apply elem_of_cons in Hin as [Hin|Hin]; [discriminate Hin|]).
  by apply elem_of_nil in Hin.
Qed.

(** C8 at the arities 2 and 3. *)
Lemma Predicate_init_arity_witness :
  (2 < 3)%Z ∧ (3 ≤ 3)%Z
  ∧ (∃ self st', Predicate___init__ 2 "PreReq" initial = (Ok self, st')
                 ∧ self = mkPredicate (next_id initial) 2 "PreReq"
                 ∧ _truths st' self = []
                 ∧ predicates st' = predicates initial ++ [self])
  ∧ Predicate___init__ 3 "Between" initial
    = (Raise (AssertionError "Only allowing up to binary arguments."), initial).
Proof.
  assert (2 < 3)%Z as H2 by lia. assert (3 ≤ 3)%Z as H3 by lia.
  split; [exact H2|]. split; [exact H3|]. split.
  - exact (proj1 (Predicate_init_arity 2 "PreReq" initial) H2).
  - exact (proj2 (Predicate_init_arity 3 "Between" initial) H3).
Defined.

(** C10 at [free["x"] = "MATH456"], a name the universe has not seen. *)
Lemma FreeVars_setitem_registers_witness :
  "MATH456" ≠ ""
  ∧ ∃ t st', FreeVars___setitem__ "x" "MATH456" after_setup = (Ok tt, st')
             ∧ free st' !! "x" = Some t
             ∧ name t = "MATH456"
             ∧ in_universe (ATerm t) (universe st') = true
             ∧ universe st'
               = if in_universe (ATerm t) (universe after_setup)
                 then universe after_setup
                 else universe after_setup ++ [t].
Proof.
  assert ("MATH456" ≠ "") as Hne by discriminate.
  split; [exact Hne|].
  exact (FreeVars_setitem_registers "x" "MATH456" after_setup Hne).
Defined.

(** With the empty name nothing is registered: the stored Term is no member
    of the universe. *)
Example FreeVars_setitem_empty_name :
  let st := (FreeVars___setitem__ "x" "" after_setup).2 in
  free st !! "x" = Some (mkTerm 15 "")
  ∧ in_universe (ATerm (mkTerm 15 "")) (universe st) = false
  ∧ universe st = universe after_setup.
Proof. cbv zeta. repeat apply conj; vm_compute; reflexivity. Qed.

(** * Further properties *)

(** ** Exists.interpret *)

Lemma Exists_loop_all_false binder scope bindings pre st st1 :
  all_false binder scope bindings pre st st1 →
  ∃ d0, ∀ d rest, (d0 ≤ d)%nat →
    Exists_loop (interpret d scope) binder bindings (pre ++ rest) st
    = Exists_loop (interpret d scope) binder bindings rest st1.
Proof.
  induction 1 as [st|e es st m st1 st2 He _ (d2 & IH)].
  - by exists 0%nat.
  - assert (m = bindings) as ->.
    { destruct He as (d & He & _). by apply interpret_same_object in He. }
    apply Interp_at in He as (d1 & He). exists (d1 `max` d2)%nat.
    intros d rest Hd. cbn [app Exists_loop].
    erewrite bind_Ok; [|reflexivity].
    erewrite bind_Ok; [|apply He; lia].
    apply IH. lia.
Qed.

(** X1. Exists(binder, scope) walks the universe in order, binding the
    binder to each element: if the scope is false for the elements before
    [e] and true for [e], the result is (true, bindings) in the state the
    scope left at [e] (no later element is tried); if the scope is false
    for every element, the result is (false, bindings). *)
Theorem Exists_interpret_search (binder : string) (scope : Formula) (bindings : nat)
    (st : State) :
  (∀ pre e post st1 m st2,
     universe st = pre ++ e :: post →
     all_false binder scope bindings pre st st1 →
     Interp scope bindings (bound bindings binder e st1) (Ok (true, m)) st2 →
     Interp (Exists binder scope) bindings st (Ok (true, bindings)) st2)
  ∧ (∀ st1,
       all_false binder scope bindings (universe st) st st1 →
       Interp (Exists binder scope) bindings st (Ok (false, bindings)) st1).
Proof.
  split.
  - intros pre e post st1 m st2 Hu Hpre He.
    assert (m = bindings) as ->.
    { destruct He as (d & He & _). by apply interpret_same_object in He. }
    apply Exists_loop_all_false in Hpre as (d0 & Hpre).
    apply Interp_at in He as (d1 & He).
    exists (S (d0 `max` d1)). split; [|done].
    cbn [interpret]. erewrite bind_Ok; [|reflexivity]. rewrite Hu.
    rewrite Hpre by lia. cbn [Exists_loop].
    erewrite bind_Ok; [|reflexivity].
    erewrite bind_Ok; [|apply He; lia]. done.
  - intros st1 (d0 & Hall)%Exists_loop_all_false.
    exists (S d0). split; [|done].
    cbn [interpret]. erewrite bind_Ok; [|reflexivity].
    specialize (Hall d0 [] ltac:(lia)). rewrite app_nil_r in Hall.
    by rewrite Hall.
Qed.

(** ** Laws of the connectives *)

(** X2. A double negation is interpreted exactly like the formula itself:
    same truth value, same bindings, same state, same exception. *)
Theorem Not_Not_interpret (e : Formula) (bindings : nat) (st : State)
    (r : Result (bool * nat)) (st' : State) :
  Interp (_Not (_Not e)) bindings st r st' ↔ Interp e bindings st r st'.
Proof.
  assert (∀ d, interpret (S (S d)) (_Not (_Not e)) bindings st
               = interpret d e bindings st) as Heq.
  { intros d. cbn [interpret]. unfold mbind, M_bind.
    destruct (interpret d e bindings st) as [[[tv m]|ex] st1]; [|done].
    cbn. by rewrite negb_involutive. }
  split.
  - intros (d & H & Hr).
    destruct d as [|[|d]]; [by injection H as <- _|..].
    + cbn in H. by injection H as <- _.
    + rewrite Heq in H. by exists d.
  - intros (d & H & Hr). exists (S (S d)). by rewrite Heq.
Qed.

(** X3. De Morgan's laws hold for the evaluator at every recursion depth,
    outcome and state included, because neither conjunction nor disjunction
    skips its right operand. *)
Theorem De_Morgan_interpret (d : nat) (l r : Formula) (bindings : nat) (st : State) :
  interpret d (_Not (_And l r)) bindings st
    = interpret d (_Or (_Not l) (_Not r)) bindings st
  ∧ interpret d (_Not (_Or l r)) bindings st
    = interpret d (_And (_Not l) (_Not r)) bindings st.
Proof.
  destruct d as [|[|d]]; [done|done|].
  cbn [interpret]. unfold mbind, M_bind.
  destruct (interpret d l bindings st) as [[[b1 m1]|e] st1]; [|done].
  cbn -[interpret].
  destruct (interpret d r m1 st1) as [[[b2 m2]|e] st2]; [|done].
  cbn. by rewrite negb_andb, negb_orb.
Qed.

(** X4. Implication is material: whenever the disjunction [~l | r]
    evaluates to a truth value, [l > r] evaluates to the same truth value
    and returns the same dictionary (the state can differ: the implication
    skips [r] when [l] is false). *)
Theorem Implies_material (l r : Formula) (bindings : nat) (st : State)
    (tv : bool) (m : nat) (st' : State) :
  Interp (_Or (_Not l) r) bindings st (Ok (tv, m)) st' →
  ∃ st'', Interp (_Implies l r) bindings st (Ok (tv, m)) st''.
Proof.
  intros (d & H & _).
  assert (m = bindings) as -> by (by apply interpret_same_object in H).
  destruct d as [|d1]; [done|].
  cbn [interpret] in H.
  apply bind_inv in H as [([nb1 m1] & st1 & Hl & H) | (e & _ & [=])].
  apply bind_inv in H as [([b2 m2] & st2 & Hr & [= <- _ <-]) | (e & _ & [=])].
  assert (m1 = bindings) as -> by (by apply interpret_same_object in Hl).
  destruct d1 as [|d]; [done|].
  cbn [interpret] in Hl.
  apply bind_inv in Hl as [([b1 m1'] & st0 & Hl & [= <- _ <-]) | (e & _ & [=])].
  assert (m1' = bindings) as -> by (by apply interpret_same_object in Hl).
  pose proof (interpret_step d l bindings _ _ _ Hl ltac:(done)) as Hl'.
  destruct b1; cbn [negb orb].
  - exists st2. exists (S (S d)). split; [|done].
    cbn [interpret]. rewrite (bind_Ok _ _ _ _ _ Hl').
    assert (m2 = bindings) as -> by (by apply interpret_same_object in Hr).
    exact Hr.
  - exists st0. exists (S (S d)). split; [|done].
    cbn [interpret]. by rewrite (bind_Ok _ _ _ _ _ Hl').
Qed.

(** ** Duality of the quantifiers *)

Lemma Interp_transfer A B bindings st r st' :
  (∀ d, interpret (S (S d)) A bindings st = interpret (S (S d)) B bindings st) →
  Interp A bindings st r st' → Interp B bindings st r st'.
Proof.
  intros Heq (d & H & Hr). exists (S (S d)). split; [|done].
  rewrite <-Heq. by apply (interpret_mono d (S (S d)) A bindings ltac:(lia)).
Qed.

Lemma Forall_loop_Not d scope binder elements b st :
  match Forall_loop (interpret d scope) binder b elements st with
  | (Ok (tv, m), st') => (Ok (negb tv, m), st')
  | (Raise e, st') => (Raise e, st')
  end
  = Exists_loop (interpret (S d) (_Not scope)) binder b elements st.
Proof.
  revert st. induction elements as [|e es IH]; intros st; [done|].
  cbn [Forall_loop Exists_loop interpret]. unfold mbind, M_bind.
  cbn [SATAssign___setitem__ modify].
  destruct (interpret d scope b _) as [[[tv m]|ex] st1] eqn:Hs; [|done].
  assert (m = b) as -> by (by apply interpret_same_object in Hs).
  cbn [mret M_ret negb]. destruct tv; cbn [negb]; [apply IH|done].
Qed.

Lemma Exists_loop_Not d scope binder elements b st :
  match Exists_loop (interpret d scope) binder b elements st with
  | (Ok (tv, m), st') => (Ok (negb tv, m), st')
  | (Raise e, st') => (Raise e, st')
  end
  = Forall_loop (interpret (S d) (_Not scope)) binder b elements st.
Proof.
  revert st. induction elements as [|e es IH]; intros st; [done|].
  cbn [Forall_loop Exists_loop interpret]. unfold mbind, M_bind.
  cbn [SATAssign___setitem__ modify].
  destruct (interpret d scope b _) as [[[tv m]|ex] st1] eqn:Hs; [|done].
  assert (m = b) as -> by (by apply interpret_same_object in Hs).
  cbn [mret M_ret negb]. destruct tv; cbn [negb]; [done|apply IH].
Qed.

(** X5. The quantifiers are dual under the evaluator: [~Forall(x, s)] is
    interpreted like [Exists(x, ~s)] and [~Exists(x, s)] like
    [Forall(x, ~s)], with the same truth value, bindings, state and
    exceptions. *)
Theorem quantifier_duality (binder : string) (scope : Formula) (bindings : nat)
    (st : State) (r : Result (bool * nat)) (st' : State) :
  (Interp (_Not (Forall binder scope)) bindings st r st'
     ↔ Interp (Exists binder (_Not scope)) bindings st r st')
  ∧ (Interp (_Not (Exists binder scope)) bindings st r st'
       ↔ Interp (Forall binder (_Not scope)) bindings st r st').
Proof.
  assert (∀ d, interpret (S (S d)) (_Not (Forall binder scope)) bindings st
               = interpret (S (S d)) (Exists binder (_Not scope)) bindings st) as H1.
  { intros d.
    transitivity (Exists_loop (interpret (S d) (_Not scope)) binder bindings
                    (universe st) st); [|reflexivity].
    rewrite <-Forall_loop_Not. cbn [interpret]. unfold mbind, M_bind, gets.
    by destruct (Forall_loop _ _ _ _ st) as [[[tv m]|e] st1]. }
  assert (∀ d, interpret (S (S d)) (_Not (Exists binder scope)) bindings st
               = interpret (S (S d)) (Forall binder (_Not scope)) bindings st) as H2.
  { intros d.
    transitivity (Forall_loop (interpret (S d) (_Not scope)) binder bindings
                    (universe st) st); [|reflexivity].
    rewrite <-Exists_loop_Not. cbn [interpret]. unfold mbind, M_bind, gets.
    by destruct (Exists_loop _ _ _ _ st) as [[[tv m]|e] st1]. }
  split; split; apply Interp_transfer; done.
Qed.

(** ** What interpretation writes *)

Lemma binders_PredApp fn args :
  binders (PredApp fn args) = flat_map arg_binders args.
Proof.
  cbn [binders]. induction args as [|[s|t|f|tv] args IH]; cbn [flat_map arg_binders app];
    by rewrite ?IH.
Qed.

Lemma touches_weaken {A} keys keys' b (m : M A) :
  keys ⊆ keys' → touches keys b m → touches keys' b m.
Proof.
  intros Hsub Hm st r st' H. destruct (Hm _ _ _ H) as [Hd Hk].
  split; [done|]. intros k Hk'. apply Hk. intros Hin. by apply Hk', Hsub.
Qed.

Lemma touches_bind {A B} keys b (m : M A) (k : A → M B) :
  touches keys b m →
  (∀ st a st1, m st = (Ok a, st1) → touches keys b (k a)) →
  touches keys b (m ≫= k).
Proof.
  intros Hm Hk st r st' [(a & st1 & H1 & H2) | (e & H1 & _)]%bind_inv.
  - destruct (Hm _ _ _ H1) as [Hd1 Hk1]. destruct (Hk _ _ _ H1 _ _ _ H2) as [Hd2 Hk2].
    split.
    + intros b' Hb'. by rewrite Hd2, Hd1.
    + intros key Hkey. by rewrite Hk2, Hk1.
  - exact (Hm _ _ _ H1).
Qed.

Lemma touches_pure {A} keys b (m : M A) : pure_lookup m → touches keys b m.
Proof.
  intros Hm st r st' H. destruct (Hm _ _ _ H) as [_ Hd].
  unfold contents. by rewrite Hd.
Qed.

Lemma pure_mret {A} (a : A) : pure_lookup (mret a).
Proof. intros st r st' [= _ <-]. done. Qed.

Lemma pure_raise {A} e : pure_lookup (@raise A e).
Proof. intros st r st' [= _ <-]. done. Qed.

Lemma pure_gets {A} (f : State → A) : pure_lookup (gets f).
Proof. intros st r st' [= _ <-]. done. Qed.

Lemma touches_setitem keys b key val :
  key ∈ keys → touches keys b (SATAssign___setitem__ b key val).
Proof.
  intros Hin st r st' [= _ <-]. cbn [dicts set_dicts]. split.
  - intros b' Hb'. by rewrite lookup_insert_ne.
  - intros k Hk. unfold contents at 1. cbn [dicts set_dicts].
    rewrite lookup_insert_eq. cbn [default].
    apply lookup_insert_ne. intros ->. by apply Hk.
Qed.

(** What a call of a predicate can return. *)
Lemma Predicate___call___result self args st f st' :
  Predicate___call__ self args st = (Ok f, st') →
  f = Top ∨ f = Bot ∨ f = PredApp self args.
Proof.
  intros H.
  destruct (decide (Z.of_nat (length args) = arity self)) as [Hlen|Hlen].
  - destruct (forallb (λ arg, in_universe arg (universe st)) args) eqn:Hb.
    + destruct (Predicate___call___concrete self args st Hlen Hb)
        as (ts & st1 & Hcall & _).
      rewrite Hcall in H. injection H as <- _.
      destruct (in_truths ts (_truths st self)); auto.
    + rewrite Predicate___call___deferred in H by done. injection H as <- _. auto.
  - by rewrite Predicate___call___arity in H.
Qed.

Section Resolve_touches.
Context (I : Formula → nat → M (bool * nat)).
Hypothesis I_same : ∀ f b, same_object b (I f b).
Hypothesis I_touches : ∀ f b, touches (binders f) b (I f b).

Lemma spec_resolve_arg_same arg b st v b' st' :
  spec_resolve_arg I arg b st = (Ok (v, b'), st') → b' = b ∧ arg_binders v = [].
Proof.
  unfold spec_resolve_arg. intros H. inv_bind H.
  destruct (in_universe arg x) eqn:Hu.
  { injection H as <- <- _. split; [done|].
    destruct arg as [s|t|f|tv]; try done. by rewrite in_universe_form in Hu. }
  destruct arg as [s|t|f|tv];
    try (inv_bind H; inv_bind H;
         destruct (lookup_arg _ x1); [by injection H as <- <- _|];
         destruct (lookup_arg _ x3); [by injection H as <- <- _|done]).
  inv_bind H. destruct x1 as [tv m]. injection H as <- <- _.
  split; [|done]. by eapply I_same.
Qed.

Lemma spec_resolve_arg_touches arg b :
  touches (arg_binders arg) b (spec_resolve_arg I arg b).
Proof.
  unfold spec_resolve_arg.
  apply touches_bind; [apply touches_pure, pure_gets|]. intros st u st1 _.
  destruct (in_universe arg u); [apply touches_pure, pure_mret|].
  destruct arg as [s|t|f|tv];
    try (apply touches_bind; [apply touches_pure, pure_gets|]; intros ? d ? _;
         apply touches_bind; [apply touches_pure, pure_gets|]; intros ? fr ? _;
         destruct (lookup_arg _ d); [apply touches_pure, pure_mret|];
         destruct (lookup_arg _ fr); [apply touches_pure, pure_mret|];
         apply touches_pure, pure_raise).
  apply touches_bind; [apply I_touches|]. intros ? [tv m] ? _.
  apply touches_pure, pure_mret.
Qed.

Lemma spec_resolve_args_same args b st vs b' st' :
  spec_resolve_args I args b st = (Ok (vs, b'), st') →
  b' = b ∧ flat_map arg_binders vs = [].
Proof.
  revert b st vs b' st'. induction args as [|arg args IH]; intros b st vs b' st' H;
    cbn [spec_resolve_args] in H.
  - by injection H as <- <- _.
  - inv_bind H. destruct x as [v b1].
    apply spec_resolve_arg_same in H0 as [-> Hv].
    inv_bind H. destruct x as [vs1 b2]. injection H as <- <- _.
    apply IH in H0 as [-> Hvs]. split; [done|].
    cbn [flat_map]. by rewrite Hv, Hvs.
Qed.

Lemma spec_resolve_args_touches args b :
  touches (flat_map arg_binders args) b (spec_resolve_args I args b).
Proof.
  revert b. induction args as [|arg args IH]; intros b; cbn [spec_resolve_args flat_map].
  - apply touches_pure, pure_mret.
  - apply touches_bind.
    { eapply touches_weaken; [|apply spec_resolve_arg_touches].
      intros k Hk. apply elem_of_app. by left. }
    intros st [v b1] st1 Hv. apply spec_resolve_arg_same in Hv as [-> _].
    apply touches_bind.
    { eapply touches_weaken; [|apply IH].
      intros k Hk. apply elem_of_app. by right. }
    intros ? [vs b2] ? _. apply touches_pure, pure_mret.
Qed.
End Resolve_touches.

Section Loops_touch.
Context (I : Formula → nat → M (bool * nat)).
Hypothesis I_same : ∀ f b, same_object b (I f b).
Hypothesis I_touches : ∀ f b, touches (binders f) b (I f b).

Lemma Forall_loop_touches scope binder elements b :
  touches (binder :: binders scope) b (Forall_loop (I scope) binder b elements).
Proof.
  induction elements as [|e es IH]; cbn [Forall_loop].
  - apply touches_pure, pure_mret.
  - apply touches_bind; [apply touches_setitem; set_solver|]. intros _ _ _ _.
    apply touches_bind.
    { eapply touches_weaken; [|apply I_touches]. set_solver. }
    intros ? [[] m] ? _; cbn [negb]; [apply IH|apply touches_pure, pure_mret].
Qed.

Lemma Exists_loop_touches scope binder elements b :
  touches (binder :: binders scope) b (Exists_loop (I scope) binder b elements).
Proof.
  induction elements as [|e es IH]; cbn [Exists_loop].
  - apply touches_pure, pure_mret.
  - apply touches_bind; [apply touches_setitem; set_solver|]. intros _ _ _ _.
    apply touches_bind.
    { eapply touches_weaken; [|apply I_touches]. set_solver. }
    intros ? [tv m] ? Hs. assert (m = b) as -> by (by eapply I_same).
    destruct tv; [apply touches_pure, pure_mret|apply IH].
Qed.
End Loops_touch.

Lemma interpret_touches d f b : touches (binders f) b (interpret d f b).
Proof.
  revert f b. induction d as [|d IH]; intros f b; [apply touches_pure, pure_raise|].
  pose proof (interpret_same_object d) as Hsame.
  destruct f; cbn [interpret binders];
    try (apply touches_pure; first [apply pure_mret|apply pure_raise]).
  - apply touches_bind.
    { eapply touches_weaken; [|apply IH]. set_solver. }
    intros ? [b1 m1] ? H1. assert (m1 = b) as -> by (by eapply Hsame).
    apply touches_bind.
    { eapply touches_weaken; [|apply IH]. set_solver. }
    intros ? [b2 m2] ? _. apply touches_pure, pure_mret.
  - apply touches_bind.
    { eapply touches_weaken; [|apply IH]. set_solver. }
    intros ? [b1 m1] ? H1. assert (m1 = b) as -> by (by eapply Hsame).
    apply touches_bind.
    { eapply touches_weaken; [|apply IH]. set_solver. }
    intros ? [b2 m2] ? _. apply touches_pure, pure_mret.
  - apply touches_bind.
    { eapply touches_weaken; [|apply IH]. set_solver. }
    intros ? [b1 m1] ? H1. assert (m1 = b) as -> by (by eapply Hsame).
    destruct b1; [|apply touches_pure, pure_mret].
    eapply touches_weaken; [|apply IH]. set_solver.
  - apply touches_bind; [apply IH|]. intros ? [tv m] ? _.
    apply touches_pure, pure_mret.
  - apply touches_bind; [apply touches_pure, pure_gets|]. intros _ u _ _.
    by apply Forall_loop_touches.
  - apply touches_bind; [apply touches_pure, pure_gets|]. intros _ u _ _.
    by apply Exists_loop_touches.
  - change ((fix go (args : list Arg) : list string :=
               match args with
               | [] => []
               | AForm f :: args => binders f ++ go args
               | _ :: args => go args
               end) args) with (binders (PredApp fn args)).
    rewrite binders_PredApp. unfold Predicate_interpret.
    intros st r st' H.
    unfold mbind at 1, M_bind at 1 in H. rewrite resolve_loop_enumerate in H.
    destruct (spec_resolve_args (interpret d) args b st) as [[[vs b1]|e] st1] eqn:Hres.
    + pose proof (spec_resolve_args_touches _ Hsame IH args b _ _ _ Hres) as [Hd1 Hk1].
      apply (spec_resolve_args_same _ Hsame) in Hres as [-> Hvs].
      apply bind_inv in H as [(f & st2 & Hcall & H) | (e & Hcall & _)].
      * pose proof (Predicate___call___pure _ _ _ _ _ Hcall) as [_ Hd2].
        assert (binders f = []) as Hf.
        { apply Predicate___call___result in Hcall as [->|[->| ->]]; [done|done|].
          by rewrite binders_PredApp. }
        destruct (IH f b _ _ _ H) as [Hd3 Hk3]. rewrite Hf in Hk3. split.
        -- intros b' Hb'. by rewrite Hd3, Hd2, Hd1.
        -- intros k Hk. rewrite Hk3 by set_solver.
           unfold contents at 1. rewrite Hd2. by apply Hk1.
      * pose proof (Predicate___call___pure _ _ _ _ _ Hcall) as [_ Hd2]. split.
        -- intros b' Hb'. by rewrite Hd2, Hd1.
        -- intros k Hk. unfold contents at 1. rewrite Hd2. by apply Hk1.
    + injection H as _ <-.
      exact (spec_resolve_args_touches _ Hsame IH args b _ _ _ Hres).
Qed.

(** X6. Whatever the outcome, interpretation leaves the universe, the
    predicate registry, the fact tables, the free variables, the knowledge
    base and the output as they were; of the SATAssign objects it writes
    only to the one it was given, and there only under names that the
    formula binds with a quantifier; and the dictionary of a result is that
    same object. *)
Theorem interpret_writes_only_bound_names (d : nat) (f : Formula) (bindings : nat)
    (st : State) :
  let out := interpret d f bindings st in
  world out.2 = world st
  ∧ (∀ b', b' ≠ bindings → dicts out.2 !! b' = dicts st !! b')
  ∧ (∀ k, k ∉ binders f → contents out.2 bindings !! k = contents st bindings !! k)
  ∧ (∀ tv m, out.1 = Ok (tv, m) → m = bindings).
Proof.
  intros out. destruct (interpret d f bindings st) as [r st'] eqn:H. subst out.
  cbn [fst snd]. split; [by eapply interpret_preserves|].
  destruct (interpret_touches d f bindings _ _ _ H) as [Hd Hk].
  split; [done|]. split; [done|].
  intros tv m ->. by eapply interpret_same_object.
Qed.

(** ** Formulas among the arguments of a predicate *)

Lemma spec_resolve_arg_bool I tv b st :
  ∃ e, spec_resolve_arg I (ABool tv) b st = (Raise e, st).
Proof.
  eexists. apply spec_resolve_arg_unbound.
  unfold has_resolution. by rewrite in_universe_bool.
Qed.

Lemma spec_resolve_args_bool I args b st tv :
  ABool tv ∈ args → ∃ e st', spec_resolve_args I args b st = (Raise e, st').
Proof.
  revert b st. induction args as [|arg args IH]; intros b st Hin.
  - by apply elem_of_nil in Hin.
  - cbn [spec_resolve_args].
    destruct (spec_resolve_arg I arg b st) as [[[v b1]|e] st1] eqn:Harg.
    + apply elem_of_cons in Hin as [<-|Hin].
      { destruct (spec_resolve_arg_bool I tv b st) as (e & He). congruence. }
      destruct (IH b1 st1 Hin) as (e & st' & He).
      exists e, st'. rewrite (bind_Ok _ _ _ _ _ Harg). by apply bind_Raise.
    + exists e, st1. by apply bind_Raise.
Qed.

Lemma spec_resolve_args_form I args b st f vs b' st' :
  AForm f ∈ args →
  spec_resolve_args I args b st = (Ok (vs, b'), st') →
  ∃ tv, ABool tv ∈ vs.
Proof.
  revert b st vs b' st'. induction args as [|arg args IH]; intros b st vs b' st' Hin H.
  - by apply elem_of_nil in Hin.
  - cbn [spec_resolve_args] in H. inv_bind H. destruct x as [v b1].
    inv_bind H. destruct x as [vs1 b2]. injection H as <- _ _.
    apply elem_of_cons in Hin as [<-|Hin].
    + unfold spec_resolve_arg in H0.
      apply bind_inv in H0 as [(u & st0 & _ & H0) | (e & _ & [=])].
      rewrite in_universe_form in H0.
      apply bind_inv in H0 as [([tv m] & st2 & _ & H0) | (e & _ & [=])].
      injection H0 as <- _ _. exists tv. apply elem_of_cons. by left.
    + destruct (IH _ _ _ _ _ Hin H1) as (tv & Htv). exists tv.
      apply elem_of_cons. by right.
Qed.

Lemma interpret_PredApp_bool d fn args b st tv :
  ABool tv ∈ args → ∃ e, (interpret d (PredApp fn args) b st).1 = Raise e.
Proof.
  intros Hin. destruct d as [|d]; [by eexists|].
  rewrite interpret_PredApp.
  destruct (spec_resolve_args_bool (interpret d) args b st tv Hin) as (e & st' & He).
  exists e. by rewrite (bind_Raise _ _ _ _ _ He).
Qed.

(** X7. A predicate application that has a formula or an application among
    its arguments is never interpreted to a truth value: at every depth and
    in every state the outcome is an exception (the truth value that
    replaces the nested formula is no element of the universe and has no
    binding). *)
Theorem nested_argument_never_interpreted (d : nat) (fn : Predicate) (args : list Arg)
    (bindings : nat) (st : State) (f : Formula) :
  AForm f ∈ args →
  ∃ e, (interpret d (PredApp fn args) bindings st).1 = Raise e.
Proof.
  intros Hin. destruct d as [|d]; [by eexists|].
  rewrite interpret_PredApp.
  destruct (spec_resolve_args (interpret d) args bindings st)
    as [[[vs b1]|e] st1] eqn:Hres; [|exists e; by rewrite (bind_Raise _ _ _ _ _ Hres)].
  rewrite (bind_Ok _ _ _ _ _ Hres).
  destruct (spec_resolve_args_form _ _ _ _ _ _ _ _ Hin Hres) as (tv & Htv).
  destruct (Predicate___call__ fn vs st1) as [[f'|e] st2] eqn:Hcall;
    [|exists e; by rewrite (bind_Raise _ _ _ _ _ Hcall)].
  rewrite (bind_Ok _ _ _ _ _ Hcall).
  assert (f' = PredApp fn vs) as ->.
  { destruct (decide (Z.of_nat (length vs) = arity fn)) as [Hlen|Hlen];
      [|by rewrite Predicate___call___arity in Hcall].
    rewrite Predicate___call___deferred in Hcall; [by injection Hcall as <- _|done|].
    apply not_true_is_false. intros Hall.
    pose proof (proj1 (forallb_in_universe _ _) Hall _ Htv) as Hu.
    by rewrite in_universe_bool in Hu. }
  by eapply interpret_PredApp_bool.
Qed.

(** ** The universe *)

Lemma Term___eq___named e t :
  nonempty (name e) = true →
  Term___eq__ e (ATerm t) = String.eqb (name e) (name t).
Proof. intros He. simpl. by rewrite He. Qed.

(** In a universe of named Terms, membership of a Term is membership of its
    name. *)
Lemma in_universe_names u t :
  universe_named u →
  in_universe (ATerm t) u = true ↔ name t ∈ name <$> u.
Proof.
  intros Hu. unfold in_universe. rewrite existsb_exists, list_elem_of_fmap. split.
  - intros (e & He%list_elem_of_In & Heq). exists e. split; [|done].
    rewrite Term___eq___named in Heq by auto. symmetry. by apply String.eqb_eq.
  - intros (e & Hn & He). exists e. split; [by apply list_elem_of_In|].
    rewrite Term___eq___named by auto. rewrite Hn. apply String.eqb_refl.
Qed.

Lemma in_universe_str_names u s :
  universe_named u →
  in_universe (AStr s) u = true ↔ s ∈ name <$> u.
Proof.
  intros Hu. unfold in_universe. rewrite existsb_exists, list_elem_of_fmap. split.
  - intros (e & He%list_elem_of_In & Heq). exists e. split; [|done].
    simpl in Heq. rewrite (Hu e He) in Heq. symmetry. by apply String.eqb_eq.
  - intros (e & -> & He). exists e. split; [by apply list_elem_of_In|].
    simpl. rewrite (Hu e He). apply String.eqb_refl.
Qed.

Lemma in_universe_prefix arg u u' :
  u `prefix_of` u' → in_universe arg u = true → in_universe arg u' = true.
Proof.
  intros [k ->]. unfold in_universe. rewrite existsb_app. by intros ->.
Qed.

Lemma grows_bind {A B} (m : M A) (k : A → M B) :
  grows_universe m → (∀ a, grows_universe (k a)) → grows_universe (m ≫= k).
Proof.
  intros Hm Hk st r st' [(a & st1 & H1 & H2) | (e & H1 & _)]%bind_inv.
  - destruct (Hm _ _ _ H1) as [Hp1 Hok1]. destruct (Hk _ _ _ _ H2) as [Hp2 Hok2].
    split; [by etrans|auto].
  - exact (Hm _ _ _ H1).
Qed.

Lemma grows_preserves {A} (m : M A) : preserves m → grows_universe m.
Proof.
  intros Hm st r st' H. apply Hm in H. unfold universe_ok.
  injection H as -> _ _ _ _ _. done.
Qed.

Lemma grows_Term___init__ nm : grows_universe (Term___init__ nm).
Proof.
  intros st r st' H. unfold Term___init__ in H.
  apply bind_inv in H as [(id & st0 & [= <- <-] & H) | (e & [=] & _)].
  apply bind_inv in H as [(u & st0 & [= <- <-] & H) | (e & [=] & _)].
  cbn [universe set_next_id] in H.
  destruct (nonempty nm) eqn:Hnm; cbn [andb] in H;
    [|injection H as _ <-; by split].
  destruct (in_universe _ (universe st)) eqn:Hin; cbn [negb] in H;
    injection H as _ <-; [by split|].
  cbn [universe set_universe set_stdout set_next_id]. split.
  - by apply prefix_app_r.
  - intros [Hnamed Hdup]. unfold universe_ok.
    cbn [universe set_universe set_stdout set_next_id]. split.
    + intros e [He|He%list_elem_of_singleton]%elem_of_app; [by apply Hnamed|].
      by subst e.
    + rewrite fmap_app. apply NoDup_app. split; [done|]. split; [|apply NoDup_singleton].
      intros n Hn [= ->]%list_elem_of_singleton.
      apply (in_universe_names _ (mkTerm (next_id st) nm)) in Hn; [|done].
      congruence.
Qed.

Lemma grows_modify (f : State → State) :
  (∀ st, universe (f st) = universe st) → grows_universe (modify f).
Proof.
  intros Hf st r st' [= _ <-]. unfold universe_ok. by rewrite Hf.
Qed.

Lemma grows_termify err args : grows_universe (termify err args).
Proof.
  induction args as [|arg args IH]; cbn [termify].
  - apply grows_preserves, preserves_mret.
  - apply grows_bind.
    + destruct arg; first [apply grows_Term___init__
                           |apply grows_preserves; first [apply preserves_mret
                                                         |apply preserves_raise]].
    + intros t. apply grows_bind; [apply IH|].
      intros ts. apply grows_preserves, preserves_mret.
Qed.

Lemma grows_Predicate_fact p args : grows_universe (Predicate_fact p args).
Proof.
  unfold Predicate_fact.
  apply grows_bind; [apply grows_preserves, preserves_assert|]. intros _.
  apply grows_bind; [apply grows_termify|]. intros truth.
  apply grows_modify. intros st. by destruct (in_truths _ _).
Qed.

Lemma grows_FreeVars___setitem__ key val : grows_universe (FreeVars___setitem__ key val).
Proof.
  unfold FreeVars___setitem__.
  apply grows_bind; [apply grows_preserves, preserves_gets|]. intros fr.
  apply grows_bind.
  { destruct (decide _); [by apply grows_modify|apply grows_preserves, preserves_mret]. }
  intros _. apply grows_bind; [apply grows_Term___init__|]. intros t.
  by apply grows_modify.
Qed.

Lemma grows_Predicate___init__ arity nm : grows_universe (Predicate___init__ arity nm).
Proof.
  unfold Predicate___init__.
  apply grows_bind; [apply grows_preserves, preserves_assert|]. intros _.
  apply grows_bind; [apply grows_preserves, preserves_fresh_id|]. intros id.
  apply grows_bind; [by apply grows_modify|]. intros _.
  apply grows_bind; [by apply grows_modify|]. intros _.
  apply grows_preserves, preserves_mret.
Qed.

Lemma grows_Forall_fact d binder expr nm : grows_universe (Forall_fact d binder expr nm).
Proof.
  unfold Forall_fact.
  apply grows_bind; [apply grows_preserves, preserves_gets|]. intros fr.
  apply grows_bind.
  { unfold SATAssign_new.
    apply grows_bind; [apply grows_preserves, preserves_fresh_id|]. intros id.
    apply grows_bind; [by apply grows_modify|]. intros _.
    apply grows_preserves, preserves_mret. }
  intros b. apply grows_bind; [apply grows_preserves, interpret_preserves|].
  intros [tv e]. destruct tv; cbn [negb]; [by apply grows_modify|].
  apply grows_bind; [apply grows_preserves, preserves_gets|]. intros ev.
  apply grows_preserves, preserves_raise.
Qed.

Lemma universe_ok_initial : universe_ok initial.
Proof. split; [by intros e ?%elem_of_nil|apply NoDup_nil_2]. Qed.

Lemma perform_universe c st :
  (universe_ok st → universe_ok (perform c st))
  ∧ (c ≠ ClearAll → universe st `prefix_of` universe (perform c st)).
Proof.
  assert (∀ A (m : M A), grows_universe m →
            (universe_ok st → universe_ok (m st).2)
            ∧ universe st `prefix_of` universe (m st).2) as Hg.
  { intros A m Hm. destruct (m st) as [r st'] eqn:H.
    destruct (Hm _ _ _ H) as [Hp Hok]. by split. }
  destruct c; cbn [perform].
  - destruct (Hg _ _ (grows_Term___init__ nm)); by split.
  - destruct (Hg _ _ (grows_Predicate___init__ arity0 nm)); by split.
  - destruct (Hg _ _ (grows_Predicate_fact p args)); by split.
  - assert (preserves (Predicate___call__ p args)) as Hp.
    { intros s r s' H. by apply Predicate___call___pure in H as [? _]. }
    destruct (Hg _ _ (grows_preserves _ Hp)); by split.
  - destruct (Hg _ _ (grows_FreeVars___setitem__ key val)); by split.
  - destruct (Hg _ _ (grows_preserves _ (interpret_preserves depth f bindings)));
      by split.
  - destruct (Hg _ _ (grows_Forall_fact depth binder expr nm)); by split.
  - split; [|done]. intros _. split; [by intros e ?%elem_of_nil|apply NoDup_nil_2].
Qed.

(** X8. Whatever calls a user makes, starting from the freshly imported
    module, the universe holds only named Terms with pairwise different
    names; every call keeps that, and every call other than clear_all()
    only adds to the universe: no element is removed or replaced. *)
Theorem universe_ok_session (calls : list Call) :
  universe_ok (session calls initial)
  ∧ ∀ c st,
      (universe_ok st → universe_ok (perform c st))
      ∧ (c ≠ ClearAll → universe st ⊆ universe (perform c st)).
Proof.
  split.
  2:{ intros c st. destruct (perform_universe c st) as [Hok Hgrow].
      split; [done|]. intros Hc e He. destruct (Hgrow Hc) as [k ->].
      apply elem_of_app. by left. }
  unfold session. generalize universe_ok_initial. generalize initial.
  induction calls as [|c calls IH]; intros st Hst; [done|].
  cbn [foldl]. apply IH. by apply perform_universe.
Qed.

(** ** Term construction *)

(** What Term.__init__ does to the state, in full. *)
Lemma Term___init___spec nm st :
  let self := mkTerm (next_id st) nm in
  Term___init__ nm st
  = (Ok self,
     if nonempty nm && negb (in_universe (ATerm self) (universe st)) then
       set_stdout (stdout st ++ ["Added " +:+ nm +:+ " to the universe"])
         (set_universe (universe st ++ [self]) (set_next_id (S (next_id st)) st))
     else set_next_id (S (next_id st)) st).
Proof.
  intros self. unfold Term___init__.
  erewrite bind_Ok; [|reflexivity]. erewrite bind_Ok; [|reflexivity].
  cbn [universe set_next_id]. fold self.
  by destruct (nonempty nm && negb (in_universe (ATerm self) (universe st))).
Qed.

Lemma nonempty_true s : nonempty s = true ↔ s ≠ "".
Proof.
  unfold nonempty. rewrite negb_true_iff. split.
  - intros H ->. by rewrite String.eqb_refl in H.
  - intros H. by apply String.eqb_neq.
Qed.

Lemma universe_named_snoc u t :
  universe_named u → nonempty (name t) = true → universe_named (u ++ [t]).
Proof.
  intros Hu Ht e [He|He%list_elem_of_singleton]%elem_of_app; [by apply Hu|by subst e].
Qed.

(** X9. Constructing a Term twice with the same non-empty name registers
    it at most once: the second construction leaves the universe as the
    first left it, the raw name is a member, and the two Terms are equal
    although they are different objects.  With the empty name nothing is
    registered and the two Terms are unequal: such a Term equals only
    itself. *)
Theorem Term_init_twice (nm : string) (st : State) :
  universe_named (universe st) →
  ∃ t1 st1 t2 st2,
    Term___init__ nm st = (Ok t1, st1) ∧ Term___init__ nm st1 = (Ok t2, st2)
    ∧ name t1 = nm ∧ name t2 = nm ∧ ident t1 ≠ ident t2
    ∧ universe st2 = universe st1
    ∧ (nm ≠ "" →
       in_universe (AStr nm) (universe st1) = true
       ∧ Term___eq__ t1 (ATerm t2) = true)
    ∧ (nm = "" →
       universe st1 = universe st
       ∧ Term___eq__ t1 (ATerm t2) = false ∧ Term___eq__ t1 (ATerm t1) = true).
Proof.
  intros Hu. eexists _, _, _, _.
  split; [apply Term___init___spec|]. split; [apply Term___init___spec|].
  set (t1 := mkTerm (next_id st) nm).
  set (st1 := if nonempty nm && negb (in_universe (ATerm t1) (universe st)) then _ else _).
  assert (next_id st1 = S (next_id st)) as Hid by (subst st1; by destruct (_ && _)).
  rewrite Hid. cbn [name ident].
  split; [done|]. split; [done|]. split; [subst t1; cbn [ident]; lia|].
  destruct (nonempty nm) eqn:Hnm; cbn [andb] in *.
  - assert (universe_named (universe st1) ∧ in_universe (ATerm t1) (universe st1) = true)
      as [Hu1 Hin1].
    { subst st1. destruct (in_universe (ATerm t1) (universe st)) eqn:Hin; cbn [negb].
      - done.
      - cbn [universe set_universe set_stdout set_next_id]. split.
        + by apply universe_named_snoc.
        + unfold in_universe. rewrite existsb_app. apply orb_true_iff. right.
          cbn [existsb]. by rewrite Term___eq___refl. }
    assert (in_universe (ATerm (mkTerm (S (next_id st)) nm)) (universe st1) = true)
      as Hin2.
    { apply in_universe_names; [done|]. by apply (in_universe_names _ t1). }
    rewrite Hin2. cbn [negb]. split; [done|]. split.
    + intros _. split.
      * apply in_universe_str_names; [done|]. by apply (in_universe_names _ t1).
      * simpl. rewrite Hnm. apply String.eqb_refl.
    + intros ->. done.
  - split; [done|]. split.
    + intros Hne. apply nonempty_true in Hne. congruence.
    + intros ->. subst st1 t1. cbn [universe]. repeat split.
      * simpl. apply Nat.eqb_neq. lia.
      * simpl. apply Nat.eqb_refl.
Qed.

(** ** Predicate.fact *)

Lemma Term___init___frame nm st t st' :
  Term___init__ nm st = (Ok t, st') →
  name t = nm
  ∧ truths st' = truths st ∧ predicates st' = predicates st ∧ free st' = free st
  ∧ knowledge_base st' = knowledge_base st ∧ dicts st' = dicts st.
Proof.
  rewrite Term___init___spec. intros [= <- <-].
  by destruct (nonempty nm && negb _).
Qed.

Lemma termify_frame err args st r st' :
  termify err args st = (r, st') →
  truths st' = truths st ∧ predicates st' = predicates st ∧ free st' = free st
  ∧ knowledge_base st' = knowledge_base st ∧ dicts st' = dicts st
  ∧ ∀ ts, r = Ok ts → length ts = length args.
Proof.
  revert st r st'. induction args as [|arg args IH]; intros st r st' H;
    cbn [termify] in H.
  - injection H as <- <-. split_and!; try done. by intros ts [= <-].
  - apply bind_inv in H as [(t & st1 & Ht & H) | (e & Ht & ->)].
    + assert (truths st1 = truths st ∧ predicates st1 = predicates st
              ∧ free st1 = free st ∧ knowledge_base st1 = knowledge_base st
              ∧ dicts st1 = dicts st) as (Et & Ep & Ef & Ek & Ed).
      { destruct arg; try discriminate Ht.
        - by apply Term___init___frame in Ht as (_ & ?).
        - by injection Ht as _ <-. }
      apply bind_inv in H as [(ts & st2 & Hts & H) | (e & Hts & ->)].
      * destruct (IH _ _ _ Hts) as (Et2 & Ep2 & Ef2 & Ek2 & Ed2 & Hlen).
        injection H as <- <-. rewrite Et2, Ep2, Ef2, Ek2, Ed2.
        split_and!; try done. intros ? [= <-]. cbn [length]. f_equal. by apply Hlen.
      * destruct (IH _ _ _ Hts) as (Et2 & Ep2 & Ef2 & Ek2 & Ed2 & _).
        rewrite Et2, Ep2, Ef2, Ek2, Ed2. split_and!; done.
    + destruct arg; try (by injection Ht as _ <-).
      by rewrite Term___init___spec in Ht.
Qed.

(** X10. Asserting a fact for a predicate never retracts a fact and never
    touches another predicate: whatever the outcome, the fact table of
    every other predicate object, the registry, the free variables and the
    knowledge base are as before, and the table of the predicate itself is
    the old one, possibly followed by one tuple, whose length is the
    arity. *)
Theorem Predicate_fact_frame (p : Predicate) (args : list Arg) (st : State) :
  let out := Predicate_fact p args st in
  predicates out.2 = predicates st ∧ free out.2 = free st
  ∧ knowledge_base out.2 = knowledge_base st
  ∧ (∀ q, pred_id q ≠ pred_id p → _truths out.2 q = _truths st q)
  ∧ (_truths out.2 p = _truths st p
     ∨ ∃ truth, _truths out.2 p = _truths st p ++ [truth]
                ∧ Z.of_nat (length truth) = arity p).
Proof.
  intros out. subst out. unfold Predicate_fact.
  destruct (decide (Z.of_nat (length args) = arity p)) as [Hlen|Hlen];
    [|rewrite bool_decide_eq_false_2 by done; cbn; split_and!; auto].
  rewrite bool_decide_eq_true_2 by done. cbn [assert].
  erewrite bind_Ok; [|reflexivity].
  destruct (termify MustBeTerms args st) as [[truth|e] st1] eqn:Hts.
  - destruct (termify_frame _ _ _ _ _ Hts) as (Et & Ep & Ef & Ek & _ & Hl).
    rewrite (bind_Ok _ _ _ _ _ Hts). cbn [modify snd].
    assert (∀ q, _truths st1 q = _truths st q) as Hq
      by (intros q; unfold _truths; by rewrite Et).
    destruct (in_truths truth (_truths st1 p)).
    + rewrite Ep, Ef, Ek. split_and!; auto.
    + cbn [predicates free knowledge_base set_truths]. rewrite Ep, Ef, Ek.
      split_and!; [done|done|done|..].
      * intros q Hne. unfold _truths at 1. cbn [truths set_truths].
        rewrite lookup_insert_ne by done. apply Hq.
      * right. exists truth. split.
        -- unfold _truths at 1. cbn [truths set_truths].
           rewrite lookup_insert_eq. cbn [default]. by rewrite Hq.
        -- by rewrite (Hl _ eq_refl).
  - destruct (termify_frame _ _ _ _ _ Hts) as (Et & Ep & Ef & Ek & _ & _).
    rewrite (bind_Raise _ _ _ _ _ Hts). cbn [snd]. rewrite Ep, Ef, Ek.
    assert (∀ q, _truths st1 q = _truths st q) as Hq
      by (intros q; unfold _truths; by rewrite Et).
    split_and!; auto.
Qed.

Lemma tuple_eq_names stored q :
  (∀ t, t ∈ stored → nonempty (name t) = true) →
  tuple_eq stored q = true ↔ name <$> stored = name <$> q.
Proof.
  revert q. induction stored as [|s stored IH]; intros [|t q] Hs;
    cbn [tuple_eq fmap list_fmap]; try done.
  rewrite andb_true_iff, IH, Term___eq___named.
  - rewrite String.eqb_eq. split; [by intros [-> ->]|by intros [= -> ->]].
  - apply Hs, elem_of_cons. by left.
  - intros x Hx. apply Hs, elem_of_cons. by right.
Qed.

Lemma in_truths_names table q q' :
  (∀ truth t, truth ∈ table → t ∈ truth → nonempty (name t) = true) →
  name <$> q = name <$> q' →
  in_truths q table = in_truths q' table.
Proof.
  intros Hnamed Hq. unfold in_truths.
  induction table as [|truth table IH]; [done|]. cbn [existsb].
  rewrite IH by (intros ? ? ?; apply Hnamed, elem_of_cons; by right). f_equal.
  assert (∀ t, t ∈ truth → nonempty (name t) = true) as Ht
    by (intros t; apply Hnamed, elem_of_cons; by left).
  destruct (tuple_eq truth q) eqn:E1, (tuple_eq truth q') eqn:E2; try done.
  - apply tuple_eq_names in E1; [|done]. rewrite Hq in E1.
    apply tuple_eq_names in E1; [|done]. congruence.
  - apply tuple_eq_names in E2; [|done]. rewrite <-Hq in E2.
    apply tuple_eq_names in E2; [|done]. congruence.
Qed.

Lemma Term___init___registers nm st :
  universe_named (universe st) → nm ≠ "" →
  ∃ st', Term___init__ nm st = (Ok (mkTerm (next_id st) nm), st')
         ∧ truths st' = truths st
         ∧ universe st `prefix_of` universe st'
         ∧ universe_named (universe st')
         ∧ in_universe (AStr nm) (universe st') = true.
Proof.
  intros Hu Hnm%nonempty_true.
  destruct (Term___init___named nm st Hnm) as (st' & Hinit & _ & Hin & Hgrow).
  exists st'. split; [done|].
  pose proof (Term___init___frame _ _ _ _ Hinit) as (_ & Et & _).
  split; [done|].
  assert (universe_named (universe st')) as Hu'.
  { rewrite Hgrow. destruct (in_universe _ (universe st)); [done|].
    by apply universe_named_snoc. }
  split; [|split; [done|]].
  - rewrite Hgrow. destruct (in_universe _ (universe st)); [done|by apply prefix_app_r].
  - apply in_universe_str_names; [done|].
    by apply (in_universe_names _ (mkTerm (next_id st) nm)).
Qed.

Lemma termify_names err names st :
  universe_named (universe st) → (∀ n, n ∈ names → n ≠ "") →
  ∃ ts st', termify err (AStr <$> names) st = (Ok ts, st')
            ∧ name <$> ts = names
            ∧ truths st' = truths st
            ∧ universe_named (universe st')
            ∧ universe st `prefix_of` universe st'
            ∧ ∀ n, n ∈ names → in_universe (AStr n) (universe st') = true.
Proof.
  revert st. induction names as [|n names IH]; intros st Hu Hnames.
  - exists [], st. split_and!; try done. by intros n ?%elem_of_nil.
  - destruct (Term___init___registers n st Hu) as (st1 & Hinit & Et1 & Hp1 & Hu1 & Hin1).
    { apply Hnames, elem_of_cons. by left. }
    destruct (IH st1 Hu1) as (ts & st2 & Hts & Hn & Et2 & Hu2 & Hp2 & Hin2).
    { intros x Hx. apply Hnames, elem_of_cons. by right. }
    exists (mkTerm (next_id st) n :: ts), st2. cbn [fmap list_fmap termify].
    rewrite (bind_Ok _ _ _ _ _ Hinit), (bind_Ok _ _ _ _ _ Hts).
    split_and!; try done.
    + cbn. by rewrite <-Hn.
    + by rewrite Et2.
    + by etrans.
    + intros x [->|Hx]%elem_of_cons; [|by apply Hin2].
      by eapply in_universe_prefix.
Qed.

Lemma tuple_named (ts : list Term) (names : list string) :
  name <$> ts = names → (∀ n, n ∈ names → n ≠ "") →
  ∀ t, t ∈ ts → nonempty (name t) = true.
Proof.
  intros <- Hn t Ht. apply nonempty_true, Hn, list_elem_of_fmap. eauto.
Qed.

(** X11. A fact can be read back: after [p.fact(names...)] with non-empty
    names, [p(names...)] is Top, and asserting the same fact again leaves
    the fact table as it is.  This is for a universe of named Terms and a
    fact table of named Terms, which the assertion keeps. *)
Theorem fact_then_call (p : Predicate) (names : list string) (st : State) :
  Z.of_nat (length names) = arity p →
  (∀ n, n ∈ names → n ≠ "") →
  universe_named (universe st) →
  facts_named st p →
  ∃ st1 st2 st3,
    Predicate_fact p (AStr <$> names) st = (Ok tt, st1)
    ∧ Predicate___call__ p (AStr <$> names) st1 = (Ok Top, st2)
    ∧ Predicate_fact p (AStr <$> names) st1 = (Ok tt, st3)
    ∧ _truths st3 p = _truths st1 p
    ∧ universe_named (universe st1) ∧ facts_named st1 p.
Proof.
  intros Hlen Hnames Hu Hfacts.
  assert (Z.of_nat (length (AStr <$> names)) = arity p) as Hlen'
    by (by rewrite length_fmap).
  (* the first assertion *)
  destruct (termify_names MustBeTerms names st Hu Hnames)
    as (truth & st0 & Hts & Hn & Et & Hu0 & _ & Hin0).
  pose (st1 := if in_truths truth (_truths st0 p) then st0
               else set_truths (<[pred_id p := _truths st0 p ++ [truth]]> (truths st0)) st0).
  assert (Predicate_fact p (AStr <$> names) st = (Ok tt, st1)) as Hfact.
  { unfold Predicate_fact. rewrite bool_decide_eq_true_2 by done. cbn [assert].
    erewrite bind_Ok; [|reflexivity]. by rewrite (bind_Ok _ _ _ _ _ Hts). }
  assert (universe st1 = universe st0) as Eu1 by (subst st1; by destruct (in_truths _ _)).
  assert (facts_named st0 p) as Hfacts0.
  { intros tr t. unfold _truths. rewrite Et. apply Hfacts. }
  assert (facts_named st1 p ∧ in_truths truth (_truths st1 p) = true) as [Hfacts1 Hmem].
  { subst st1. destruct (in_truths truth (_truths st0 p)) eqn:Hmem; [done|].
    assert (_truths (set_truths (<[pred_id p := _truths st0 p ++ [truth]]> (truths st0)) st0) p
            = _truths st0 p ++ [truth]) as Etab.
    { unfold _truths at 1. cbn [truths set_truths]. by rewrite lookup_insert_eq. }
    unfold facts_named. rewrite Etab. split.
    - intros tr t [Htr|Htr%list_elem_of_singleton]%elem_of_app Ht;
        [by eapply Hfacts0|]. subst tr. by eapply tuple_named.
    - unfold in_truths. rewrite existsb_app. apply orb_true_iff. right.
      cbn [existsb]. rewrite orb_false_r. apply tuple_eq_names; [|done].
      by eapply tuple_named. }
  assert (universe_named (universe st1)) as Hu1 by (by rewrite Eu1).
  assert (∀ q, name <$> q = names → in_truths q (_truths st1 p) = true) as Hread.
  { intros q Hq. rewrite <-Hmem. apply in_truths_names; [done|congruence]. }
  (* the call *)
  assert (forallb (λ arg, in_universe arg (universe st1)) (AStr <$> names) = true) as Hall.
  { apply forallb_in_universe. intros arg (n & -> & Hin)%list_elem_of_fmap.
    rewrite Eu1. by apply Hin0. }
  destruct (Predicate___call___concrete p _ st1 Hlen' Hall)
    as (ts & st2 & Hcall & Hco & _).
  assert (name <$> ts = names) as Hts_names.
  { clear -Hco. revert ts Hco. induction names as [|n names IH]; intros ts Hco.
    - by inversion Hco.
    - inversion Hco as [|? t ? ts' Ht Hrest]; subst. cbn in *. f_equal; [done|].
      by apply IH. }
  rewrite (Hread _ Hts_names) in Hcall.
  (* the second assertion *)
  destruct (termify_names MustBeTerms names st1 Hu1 Hnames)
    as (truth' & st1' & Hts' & Hn' & Et' & _).
  assert (Predicate_fact p (AStr <$> names) st1 = (Ok tt, st1')) as Hfact'.
  { unfold Predicate_fact. rewrite bool_decide_eq_true_2 by done. cbn [assert].
    erewrite bind_Ok; [|reflexivity]. rewrite (bind_Ok _ _ _ _ _ Hts'). unfold modify.
    assert (_truths st1' p = _truths st1 p) as Etab by (unfold _truths; by rewrite Et').
    by rewrite Etab, (Hread _ Hn'). }
  exists st1, st2, st1'. split_and!; try done.
  unfold _truths. by rewrite Et'.
Qed.

(** ** The reference semantics *)

Lemma world_eq st st' :
  world st' = world st →
  universe st' = universe st ∧ free st' = free st ∧ truths st' = truths st.
Proof. by intros [= -> _ -> _ -> _]. Qed.

Lemma forallb_pointwise {A} (f g : A → bool) l :
  (∀ x, x ∈ l → f x = g x) → forallb f l = forallb g l.
Proof.
  induction l as [|a l IH]; intros H; [done|]. cbn [forallb].
  rewrite H, IH; [done| |apply elem_of_cons; by left].
  intros x Hx. apply H, elem_of_cons. by right.
Qed.

Lemma existsb_pointwise {A} (f g : A → bool) l :
  (∀ x, x ∈ l → f x = g x) → existsb f l = existsb g l.
Proof.
  induction l as [|a l IH]; intros H; [done|]. cbn [existsb].
  rewrite H, IH; [done| |apply elem_of_cons; by left].
  intros x Hx. apply H, elem_of_cons. by right.
Qed.

Lemma forallb_elem {A} (f : A → bool) l :
  forallb f l = true ↔ ∀ x, x ∈ l → f x = true.
Proof.
  rewrite forallb_forall. split; intros H x Hx; apply H; by apply list_elem_of_In.
Qed.

(** The semantics reads the state through the universe, the free variables
    and the fact tables, and the environment at the free names only. *)
Lemma denotation_ext st st' env env' k :
  universe st' = universe st → free st' = free st → env' !! k = env !! k →
  denotation st' env' k = denotation st env k.
Proof. intros Hu Hf Hk. unfold denotation, universe_names. by rewrite Hu, Hf, Hk. Qed.

Lemma denotations_ext st st' env env' args :
  universe st' = universe st → free st' = free st →
  (∀ k, AStr k ∈ args → env' !! k = env !! k) →
  denotations st' env' args = denotations st env args.
Proof.
  intros Hu Hf. induction args as [|arg args IH]; intros Hk; [done|].
  cbn [denotations]. destruct arg as [k| | |]; try done.
  rewrite (denotation_ext st st' env env' k), IH; try done.
  - intros k' Hk'. apply Hk, elem_of_cons. by right.
  - apply Hk, elem_of_cons. by left.
Qed.

Lemma free_names_PredApp p args k :
  k ∈ free_names (PredApp p args) ↔ AStr k ∈ args.
Proof.
  cbn [free_names]. rewrite list_elem_of_omap. split.
  - intros ([s| | |] & Hin & [= <-]). done.
  - intros Hin. by exists (AStr k).
Qed.

Lemma holds_ext f : ∀ st st' env env',
  universe st' = universe st → free st' = free st → truths st' = truths st →
  (∀ k, k ∈ free_names f → env' !! k = env !! k) →
  holds st' env' f = holds st env f.
Proof.
  induction f as [ | |l IHl r IHr|l IHl r IHr|l IHl r IHr|e IHe|x s IHs|x s IHs
                  |p args|fn args|fn|p]; intros st st' env env' Hu Hf Ht Hk;
    cbn [holds]; try done.
  - rewrite (IHl st st' env env'), (IHr st st' env env'); try done;
      intros k ?; apply Hk, elem_of_app; auto.
  - rewrite (IHl st st' env env'), (IHr st st' env env'); try done;
      intros k ?; apply Hk, elem_of_app; auto.
  - rewrite (IHl st st' env env'), (IHr st st' env env'); try done;
      intros k ?; apply Hk, elem_of_app; auto.
  - by rewrite (IHe st st' env env').
  - rewrite Hu. apply forallb_pointwise. intros e _. apply IHs; try done.
    intros k Hin. destruct (decide (k = x)) as [->|Hne].
    + by rewrite !lookup_insert_eq.
    + rewrite !lookup_insert_ne by done. apply Hk. cbn [free_names].
      by apply list_elem_of_filter.
  - rewrite Hu. apply existsb_pointwise. intros e _. apply IHs; try done.
    intros k Hin. destruct (decide (k = x)) as [->|Hne].
    + by rewrite !lookup_insert_eq.
    + rewrite !lookup_insert_ne by done. apply Hk. cbn [free_names].
      by apply list_elem_of_filter.
  - rewrite (denotations_ext st st' env env') by
      (try done; intros k Hin; by apply Hk, free_names_PredApp).
    unfold fact_names, _truths. by rewrite Ht.
Qed.

Lemma resolves_ext st st' env env' k :
  universe st' = universe st → free st' = free st → env' !! k = env !! k →
  resolves st' env' k = resolves st env k.
Proof.
  intros Hu Hf Hk. unfold resolves, universe_names.
  by rewrite (denotation_ext st st' env env'), Hu.
Qed.

Lemma closed_spec st env f :
  closed st env f = true ↔ ∀ k, k ∈ free_names f → resolves st env k = true.
Proof. apply forallb_elem. Qed.

(** Membership in a fact table of named Terms is membership of the tuple
    of names. *)
Lemma in_truths_spec ts table :
  (∀ truth t, truth ∈ table → t ∈ truth → nonempty (name t) = true) →
  in_truths ts table
  = bool_decide ((name <$> ts) ∈ (λ truth : list Term, name <$> truth) <$> table).
Proof.
  intros Hnamed. apply eq_true_iff_eq. rewrite bool_decide_eq_true.
  unfold in_truths. rewrite existsb_exists, list_elem_of_fmap. split.
  - intros (stored & Hin%list_elem_of_In & Heq). exists stored. split; [|done].
    symmetry. apply tuple_eq_names; [|done]. intros t. by apply Hnamed.
  - intros (stored & Heq & Hin). exists stored. split; [by apply list_elem_of_In|].
    apply tuple_eq_names; [|done]. intros t. by apply Hnamed.
Qed.

(** Resolution of the arguments of an application to names: nothing is
    written, and every resolved argument is a member of the universe named
    as the semantics says. *)
Lemma spec_resolve_args_names I args b st :
  universe_named (universe st) →
  forallb is_name args = true →
  (∀ k, AStr k ∈ args → resolves st (contents st b) k = true) →
  ∃ vs ns,
    spec_resolve_args I args b st = (Ok (vs, b), st)
    ∧ denotations st (contents st b) args = Some ns
    ∧ forallb (λ v, in_universe v (universe st)) vs = true
    ∧ length vs = length args
    ∧ ∀ ts, Forall2 coerced vs ts → name <$> ts = ns.
Proof.
  intros Hu. induction args as [|arg args IH]; intros Hargs Hres.
  - exists [], []. split_and!; try done. by intros ts ->%Forall2_nil_inv_l.
  - cbn [forallb] in Hargs. apply andb_true_iff in Hargs as [Harg Hargs].
    destruct arg as [k| | |]; try discriminate Harg.
    destruct IH as (vs & ns & Hvs & Hns & Hall & Hlen & Hco); [done| |].
    { intros k' Hk'. apply Hres, elem_of_cons. by right. }
    assert (resolves st (contents st b) k = true) as Hk
      by (apply Hres, elem_of_cons; by left).
    unfold resolves in Hk.
    destruct (denotation st (contents st b) k) as [n|] eqn:Hden; [|done].
    apply bool_decide_eq_true in Hk.
    assert (∃ v, spec_resolve_arg I (AStr k) b st = (Ok (v, b), st)
                 ∧ in_universe v (universe st) = true
                 ∧ ∀ t, coerced v t → name t = n) as (v & Hv & Hin & Hcov).
    { unfold spec_resolve_arg. erewrite bind_Ok; [|reflexivity].
      unfold denotation in Hden.
      destruct (in_universe (AStr k) (universe st)) eqn:Hmem.
      - exists (AStr k). split; [done|]. split; [done|].
        apply in_universe_str_names in Hmem; [|done].
        rewrite bool_decide_eq_true_2 in Hden by done.
        injection Hden as <-. by intros t.
      - rewrite bool_decide_eq_false_2 in Hden.
        2:{ intros Hmem'%in_universe_str_names; [congruence|done]. }
        erewrite bind_Ok; [|reflexivity]. erewrite bind_Ok; [|reflexivity].
        cbn [lookup_arg].
        destruct (contents st b !! k) as [v|] eqn:Hb.
        + injection Hden as <-. exists (ATerm v). split; [done|].
          split; [by apply in_universe_names|]. by intros t ->.
        + destruct (free st !! k) as [v|] eqn:Hfr; [|done].
          injection Hden as <-. exists (ATerm v). split; [done|].
          split; [by apply in_universe_names|]. by intros t ->. }
    exists (v :: vs), (n :: ns). cbn [spec_resolve_args denotations].
    rewrite (bind_Ok _ _ _ _ _ Hv). cbn beta iota.
    rewrite (bind_Ok _ _ _ _ _ Hvs). rewrite Hden, Hns.
    split_and!; try done.
    + cbn [forallb]. by rewrite Hin, Hall.
    + cbn [length]. by rewrite Hlen.
    + intros ts Hts. apply Forall2_cons_inv_l in Hts as (t & ts' & Ht & Hts' & ->).
      cbn [fmap list_fmap]. f_equal; [by apply Hcov|by apply Hco].
Qed.

Lemma contents_bound b x e st :
  contents (bound b x e st) b = <[x := e]> (contents st b).
Proof. unfold bound, contents at 1. cbn. by rewrite lookup_insert_eq. Qed.

Lemma world_bound b x e st : world (bound b x e st) = world st.
Proof. done. Qed.

Lemma facts_named_world st st' :
  truths st' = truths st → (∀ p, facts_named st p) → ∀ p, facts_named st' p.
Proof. intros Ht H p truth t. unfold _truths. rewrite Ht. apply H. Qed.

(** An application of a predicate to names is interpreted as the semantics
    says. *)
Lemma interpret_PredApp_holds d p args b st :
  Z.of_nat (length args) = arity p → forallb is_name args = true →
  universe_named (universe st) → (∀ p, facts_named st p) →
  closed st (contents st b) (PredApp p args) = true →
  ∃ st', interpret (S (S d)) (PredApp p args) b st
         = (Ok (holds st (contents st b) (PredApp p args), b), st').
Proof.
  intros Hlen Hargs Hu Hf Hc. rewrite interpret_PredApp.
  destruct (spec_resolve_args_names (interpret (S d)) args b st Hu Hargs)
    as (vs & ns & Hvs & Hns & Hall & Hlen' & Hco).
  { intros k Hk. apply (proj1 (closed_spec _ _ _) Hc). by apply free_names_PredApp. }
  rewrite (bind_Ok _ _ _ _ _ Hvs). cbn beta iota.
  destruct (Predicate___call___concrete p vs st) as (ts & st' & Hcall & Hts & _);
    [by rewrite Hlen'|done|].
  rewrite (bind_Ok _ _ _ _ _ Hcall). exists st'.
  cbn [holds]. rewrite Hns, <-(Hco ts Hts).
  unfold fact_names. rewrite <-in_truths_spec by apply Hf.
  by destruct (in_truths ts (_truths st p)).
Qed.

Section Loops_hold.
Context (s : Formula) (x : string) (b : nat) (d : nat) (st0 : State) (env0 : Dict).
Hypothesis IHs : ∀ st,
  universe_named (universe st) → (∀ p, facts_named st p) →
  closed st (contents st b) s = true →
  ∃ st', interpret d s b st = (Ok (holds st (contents st b) s, b), st').
Hypothesis Hbinders : ∀ k, k ∈ binders s → k ∈ free_names s → k = x.
Hypothesis Hnamed : universe_named (universe st0).
Hypothesis Hfacts : ∀ p, facts_named st0 p.
Hypothesis Hclosed : ∀ k, k ∈ free_names s → k ≠ x → resolves st0 env0 k = true.

(** With [x] bound to a member [e], the scope is ready to be interpreted,
    and means what it means under [env0] extended by [x := e]. *)
Lemma scope_ready e st :
  name e ∈ universe_names st0 → world st = world st0 →
  (∀ k, k ∈ free_names s → k ≠ x → contents st b !! k = env0 !! k) →
  universe_named (universe (bound b x e st))
  ∧ (∀ p, facts_named (bound b x e st) p)
  ∧ closed (bound b x e st) (contents (bound b x e st) b) s = true
  ∧ ∀ st1 env1, world st1 = world st0 →
      (∀ k, k ∈ free_names s → env1 !! k = contents (bound b x e st) b !! k) →
      holds st1 env1 s = holds st0 (<[x := e]> env0) s.
Proof.
  intros He Hw Henv. apply world_eq in Hw as Hw'. destruct Hw' as (Eu & Efr & Et).
  assert (∀ k, k ∈ free_names s →
            contents (bound b x e st) b !! k = <[x := e]> env0 !! k) as Hagree.
  { intros k Hk. rewrite contents_bound. destruct (decide (k = x)) as [->|Hne].
    - by rewrite !lookup_insert_eq.
    - rewrite !lookup_insert_ne by done. by apply Henv. }
  split_and!.
  - cbn. by rewrite Eu.
  - by apply (facts_named_world st0).
  - apply closed_spec. intros k Hk.
    rewrite (resolves_ext st0 _ (<[x := e]> env0)); [|done|done|by apply Hagree].
    destruct (decide (k = x)) as [->|Hne].
    + unfold resolves, denotation. rewrite lookup_insert_eq.
      destruct (bool_decide (x ∈ universe_names st0)) eqn:Hx; [done|].
      by apply bool_decide_eq_true.
    + rewrite (resolves_ext st0 _ env0); [by apply Hclosed|done|done|].
      by rewrite lookup_insert_ne.
  - intros st1 env1 (Eu1 & Efr1 & Et1)%world_eq Henv1.
    apply holds_ext; try done. intros k Hk. rewrite Henv1 by done. by apply Hagree.
Qed.

(** One turn of either loop. *)
Lemma scope_holds e st :
  name e ∈ universe_names st0 → world st = world st0 →
  (∀ k, k ∈ free_names s → k ≠ x → contents st b !! k = env0 !! k) →
  ∃ st1, interpret d s b (bound b x e st)
         = (Ok (holds st0 (<[x := e]> env0) s, b), st1)
         ∧ world st1 = world st0
         ∧ ∀ k, k ∈ free_names s → k ≠ x → contents st1 b !! k = env0 !! k.
Proof.
  intros He Hw Henv.
  destruct (scope_ready e st) as (Hu1 & Hf1 & Hc1 & Hext); try done.
  destruct (IHs (bound b x e st)) as (st1 & Hs); try done.
  exists st1. rewrite Hs, (Hext (bound b x e st) _) by done.
  split; [done|].
  pose proof (interpret_preserves _ _ _ _ _ _ Hs) as Hw1.
  pose proof (interpret_touches _ _ _ _ _ _ Hs) as [_ Hkeys].
  split; [by rewrite Hw1|].
  intros k Hk Hne. rewrite Hkeys.
  + rewrite contents_bound, lookup_insert_ne by done. by apply Henv.
  + intros Hb. by apply Hne, Hbinders.
Qed.

Lemma Forall_loop_holds es st :
  (∀ e, e ∈ es → name e ∈ universe_names st0) → world st = world st0 →
  (∀ k, k ∈ free_names s → k ≠ x → contents st b !! k = env0 !! k) →
  ∃ st', Forall_loop (interpret d s) x b es st
         = (Ok (forallb (λ e, holds st0 (<[x := e]> env0) s) es, b), st').
Proof.
  revert st. induction es as [|e es IH]; intros st Hes Hw Henv.
  - by exists st.
  - destruct (scope_holds e st) as (st1 & Hs & Hw1 & Henv1); try done.
    { apply Hes, elem_of_cons. by left. }
    cbn [Forall_loop forallb]. erewrite bind_Ok; [|reflexivity].
    rewrite (bind_Ok _ _ _ _ _ Hs). cbn beta iota.
    destruct (holds st0 (<[x := e]> env0) s); cbn [negb andb].
    + apply IH; try done. intros e' He'. apply Hes, elem_of_cons. by right.
    + by exists st1.
Qed.

Lemma Exists_loop_holds es st :
  (∀ e, e ∈ es → name e ∈ universe_names st0) → world st = world st0 →
  (∀ k, k ∈ free_names s → k ≠ x → contents st b !! k = env0 !! k) →
  ∃ st', Exists_loop (interpret d s) x b es st
         = (Ok (existsb (λ e, holds st0 (<[x := e]> env0) s) es, b), st').
Proof.
  revert st. induction es as [|e es IH]; intros st Hes Hw Henv.
  - by exists st.
  - destruct (scope_holds e st) as (st1 & Hs & Hw1 & Henv1); try done.
    { apply Hes, elem_of_cons. by left. }
    cbn [Exists_loop existsb]. erewrite bind_Ok; [|reflexivity].
    rewrite (bind_Ok _ _ _ _ _ Hs). cbn beta iota.
    destruct (holds st0 (<[x := e]> env0) s); cbn [orb].
    + by exists st1.
    + apply IH; try done. intros e' He'. apply Hes, elem_of_cons. by right.
Qed.
End Loops_hold.

(** The right operand of a connective, interpreted after the left one, has
    the value the semantics gives it under the original environment. *)
Lemma operand_after f g d b st tv st1 :
  interpret d f b st = (Ok (tv, b), st1) →
  forallb (λ k, bool_decide (k ∉ free_names g)) (binders f) = true →
  universe_named (universe st) → (∀ p, facts_named st p) →
  closed st (contents st b) g = true →
  universe_named (universe st1) ∧ (∀ p, facts_named st1 p)
  ∧ closed st1 (contents st1 b) g = true
  ∧ holds st1 (contents st1 b) g = holds st (contents st b) g.
Proof.
  intros Hf Hdis Hu Hfacts Hc.
  pose proof (interpret_preserves _ _ _ _ _ _ Hf) as Hw.
  apply world_eq in Hw as (Eu & Efr & Et).
  pose proof (interpret_touches _ _ _ _ _ _ Hf) as [_ Hkeys].
  assert (∀ k, k ∈ free_names g → contents st1 b !! k = contents st b !! k) as Hagree.
  { intros k Hk. apply Hkeys. intros Hb.
    by apply (proj1 (forallb_elem _ _) Hdis), bool_decide_eq_true in Hb. }
  split_and!.
  - by rewrite Eu.
  - by apply (facts_named_world st).
  - apply closed_spec. intros k Hk. rewrite (resolves_ext st _ (contents st b)); auto.
    by apply (proj1 (closed_spec _ _ _) Hc).
  - by apply holds_ext.
Qed.

Lemma closed_app st env l r :
  closed st env l = true → closed st env r = true →
  forallb (resolves st env) (free_names l ++ free_names r) = true.
Proof. intros Hl Hr. rewrite forallb_app. by rewrite andb_true_iff. Qed.

Lemma interpret_holds_at f : ∀ d b st,
  (height f ≤ d)%nat → hygienic f = true →
  universe_named (universe st) → (∀ p, facts_named st p) →
  closed st (contents st b) f = true →
  ∃ st', interpret d f b st = (Ok (holds st (contents st b) f, b), st').
Proof.
  induction f as [ | |l IHl r IHr|l IHl r IHr|l IHl r IHr|e IHe|x s IHs|x s IHs
                  |p args|fn args|fn|p]; intros d b st Hd Hh Hu Hfacts Hc;
    try discriminate Hh; cbn [height] in Hd; (destruct d as [|d]; [lia|]);
    cbn [hygienic] in Hh.
  - by exists st.
  - by exists st.
  - apply andb_true_iff in Hh as [[Hl Hr]%andb_true_iff Hdis].
    unfold closed in Hc. cbn [free_names] in Hc. rewrite forallb_app in Hc.
    apply andb_true_iff in Hc as [Hcl Hcr].
    destruct (IHl d b st) as (st1 & H1); try done; [lia|].
    destruct (operand_after l r d b st _ st1 H1) as (Hu1 & Hf1 & Hc1 & E); try done.
    destruct (IHr d b st1) as (st2 & H2); try done; [lia|].
    exists st2. cbn [interpret holds].
    rewrite (bind_Ok _ _ _ _ _ H1). cbn beta iota.
    rewrite (bind_Ok _ _ _ _ _ H2). cbn beta iota. by rewrite E.
  - apply andb_true_iff in Hh as [[Hl Hr]%andb_true_iff Hdis].
    unfold closed in Hc. cbn [free_names] in Hc. rewrite forallb_app in Hc.
    apply andb_true_iff in Hc as [Hcl Hcr].
    destruct (IHl d b st) as (st1 & H1); try done; [lia|].
    destruct (operand_after l r d b st _ st1 H1) as (Hu1 & Hf1 & Hc1 & E); try done.
    destruct (IHr d b st1) as (st2 & H2); try done; [lia|].
    exists st2. cbn [interpret holds].
    rewrite (bind_Ok _ _ _ _ _ H1). cbn beta iota.
    rewrite (bind_Ok _ _ _ _ _ H2). cbn beta iota. by rewrite E.
  - apply andb_true_iff in Hh as [[Hl Hr]%andb_true_iff Hdis].
    unfold closed in Hc. cbn [free_names] in Hc. rewrite forallb_app in Hc.
    apply andb_true_iff in Hc as [Hcl Hcr].
    destruct (IHl d b st) as (st1 & H1); try done; [lia|].
    destruct (operand_after l r d b st _ st1 H1) as (Hu1 & Hf1 & Hc1 & E); try done.
    cbn [interpret holds]. rewrite (bind_Ok _ _ _ _ _ H1). cbn beta iota.
    destruct (holds st (contents st b) l); cbn [implb].
    + destruct (IHr d b st1) as (st2 & H2); try done; [lia|].
      exists st2. by rewrite H2, E.
    + by exists st1.
  - destruct (IHe d b st) as (st1 & H1); try done; [lia|].
    exists st1. cbn [interpret holds]. by rewrite (bind_Ok _ _ _ _ _ H1).
  - apply andb_true_iff in Hh as [Hs Hb].
    cbn [interpret holds]. erewrite bind_Ok; [|reflexivity].
    apply (Forall_loop_holds s x b d st (contents st b)); try done.
    + intros st1 ? ? ?. apply IHs; try done. lia.
    + intros k Hk Hfree.
      by apply (proj1 (forallb_elem _ _) Hb), bool_decide_eq_true in Hk; auto.
    + intros k Hk Hne. apply (proj1 (closed_spec _ _ _) Hc). cbn [free_names].
      by apply list_elem_of_filter.
    + intros e He. by apply list_elem_of_fmap_2.
  - apply andb_true_iff in Hh as [Hs Hb].
    cbn [interpret holds]. erewrite bind_Ok; [|reflexivity].
    apply (Exists_loop_holds s x b d st (contents st b)); try done.
    + intros st1 ? ? ?. apply IHs; try done. lia.
    + intros k Hk Hfree.
      by apply (proj1 (forallb_elem _ _) Hb), bool_decide_eq_true in Hk; auto.
    + intros k Hk Hne. apply (proj1 (closed_spec _ _ _) Hc). cbn [free_names].
      by apply list_elem_of_filter.
    + intros e He. by apply list_elem_of_fmap_2.
  - apply andb_true_iff in Hh as [Hlen%bool_decide_eq_true Hargs].
    destruct d as [|d]; [lia|]. by apply interpret_PredApp_holds.
Qed.

(** X12. On the quantified fragment, [interpret] computes the truth value
    of the formula: for a hygienic formula whose free names all denote
    members of the universe, in a state whose universe and fact tables hold
    named Terms, interpretation returns, with the dictionary it was given,
    the truth value that the reference semantics assigns to the formula
    under the contents of that dictionary.  It changes neither the
    universe, the fact tables, the free variables nor the knowledge base. *)
Theorem interpret_holds (f : Formula) (bindings : nat) (st : State) :
  hygienic f = true →
  universe_named (universe st) → (∀ p, facts_named st p) →
  closed st (contents st bindings) f = true →
  ∃ st', Interp f bindings st (Ok (holds st (contents st bindings) f, bindings)) st'
         ∧ world st' = world st.
Proof.
  intros Hh Hu Hfacts Hc.
  destruct (interpret_holds_at f (height f) bindings st) as (st' & H); try done.
  exists st'. split; [by exists (height f)|].
  by apply (interpret_preserves _ _ _ _ _ _ H).
Qed.

(** ** The assignment returned *)

Section Loops_last.
Context (I : nat → M (bool * nat)) (x : string) (b : nat) (keys : list string).
Hypothesis I_preserves : preserves (I b).
Hypothesis I_touches : touches keys b (I b).
Hypothesis I_same : same_object b (I b).

(** What a loop over a non-empty universe returns is what the last
    interpretation of the scope that it ran returned. *)
Lemma Forall_loop_last es st tv m st' :
  es ≠ [] → Forall_loop I x b es st = (Ok (tv, m), st') →
  ∃ e st_e m', e ∈ es ∧ world st_e = world st
    ∧ (∀ k, k ∉ x :: keys → contents st_e b !! k = contents st b !! k)
    ∧ I b (bound b x e st_e) = (Ok (tv, m'), st').
Proof.
  revert st. induction es as [|e es IH]; intros st Hne H; [done|].
  cbn [Forall_loop] in H. erewrite bind_Ok in H; [|reflexivity].
  apply bind_inv in H as [([tv1 m1] & st1 & Hs & H) | (? & _ & [=])].
  change (I b (bound b x e st) = (Ok (tv1, m1), st1)) in Hs.
  cbn beta iota in H. destruct tv1; cbn [negb] in H.
  - destruct es as [|e' es].
    + injection H as <- <- <-. exists e, st, m1. split_and!; try done.
      apply elem_of_cons. by left.
    + destruct (IH st1) as (e0 & st_e & m' & Hin & Hw & Hk & Hlast); try done.
      exists e0, st_e, m'. split_and!; try done.
      * apply elem_of_cons. by right.
      * rewrite Hw. by rewrite (I_preserves _ _ _ Hs).
      * intros k Hnk. rewrite Hk by done.
        destruct (I_touches _ _ _ Hs) as [_ Hkeys]. rewrite Hkeys.
        -- rewrite contents_bound, lookup_insert_ne; [done|].
           intros ->. apply Hnk, elem_of_cons. by left.
        -- intros Hin'. apply Hnk, elem_of_cons. by right.
  - injection H as <- <- <-. exists e, st, m1. split_and!; try done.
    apply elem_of_cons. by left.
Qed.

Lemma Exists_loop_last es st tv m st' :
  es ≠ [] → Exists_loop I x b es st = (Ok (tv, m), st') →
  ∃ e st_e m', e ∈ es ∧ world st_e = world st
    ∧ (∀ k, k ∉ x :: keys → contents st_e b !! k = contents st b !! k)
    ∧ I b (bound b x e st_e) = (Ok (tv, m'), st').
Proof.
  revert st. induction es as [|e es IH]; intros st Hne H; [done|].
  cbn [Exists_loop] in H. erewrite bind_Ok in H; [|reflexivity].
  apply bind_inv in H as [([tv1 m1] & st1 & Hs & H) | (? & _ & [=])].
  change (I b (bound b x e st) = (Ok (tv1, m1), st1)) in Hs.
  cbn beta iota in H. pose proof (I_same _ _ _ _ Hs) as ->.
  destruct tv1.
  - injection H as <- <- <-. exists e, st, b. split_and!; try done.
    apply elem_of_cons. by left.
  - destruct es as [|e' es].
    + injection H as <- <- <-. exists e, st, b. split_and!; try done.
      apply elem_of_cons. by left.
    + destruct (IH st1) as (e0 & st_e & m' & Hin & Hw & Hk & Hlast); try done.
      exists e0, st_e, m'. split_and!; try done.
      * apply elem_of_cons. by right.
      * rewrite Hw. by rewrite (I_preserves _ _ _ Hs).
      * intros k Hnk. rewrite Hk by done.
        destruct (I_touches _ _ _ Hs) as [_ Hkeys]. rewrite Hkeys.
        -- rewrite contents_bound, lookup_insert_ne; [done|].
           intros ->. apply Hnk, elem_of_cons. by left.
        -- intros Hin'. apply Hnk, elem_of_cons. by right.
Qed.
End Loops_last.

Lemma matrix_quantifier_free f :
  match f with Forall _ _ | Exists _ _ => False | _ => True end → matrix f = f.
Proof. by destruct f. Qed.

Lemma certifies_quantifier_free f d b st tv m st' :
  binders f = [] →
  interpret d f b st = (Ok (tv, m), st') →
  holds st (contents st' b) f = holds st (contents st b) f.
Proof.
  intros Hb H. pose proof (interpret_touches _ _ _ _ _ _ H) as [_ Hkeys].
  apply holds_ext; try done. intros k _. apply Hkeys. rewrite Hb. apply not_elem_of_nil.
Qed.

Lemma certifies_at f : ∀ d b st tv m st',
  (height f ≤ d)%nat → hygienic f = true → binders (matrix f) = [] →
  universe_named (universe st) → (∀ p, facts_named st p) →
  closed st (contents st b) f = true → universe st ≠ [] →
  interpret d f b st = (Ok (tv, m), st') →
  tv = holds st (contents st b) f
  ∧ holds st (contents st' b) (matrix f) = tv.
Proof.
  assert (∀ g d b st tv m st',
    match g with Forall _ _ | Exists _ _ => False | _ => True end →
    (height g ≤ d)%nat → hygienic g = true → binders (matrix g) = [] →
    universe_named (universe st) → (∀ p, facts_named st p) →
    closed st (contents st b) g = true →
    interpret d g b st = (Ok (tv, m), st') →
    tv = holds st (contents st b) g
    ∧ holds st (contents st' b) (matrix g) = tv) as Hqf.
  { intros g d b st tv m st' Hg Hd Hh Hb Hu Hfacts Hc H.
    rewrite matrix_quantifier_free in * by done.
    destruct (interpret_holds_at g d b st) as (st1 & H1); try done.
    rewrite H1 in H. injection H as <- <- <-. split; [done|].
    by eapply certifies_quantifier_free. }
  induction f as [ | |l IHl r IHr|l IHl r IHr|l IHl r IHr|e IHe|x s IHs|x s IHs
                  |p args|fn args|fn|p]; intros d b st tv m st' Hd Hh Hb Hu Hfacts Hc Hne H;
    try (by eapply Hqf).
  - destruct (interpret_holds_at (Forall x s) d b st) as (st1 & H1); try done.
    rewrite H1 in H. injection H as <- <- <-. split; [done|].
    cbn [height] in Hd. destruct d as [|d]; [lia|].
    cbn [hygienic] in Hh. apply andb_true_iff in Hh as [Hs Hbs].
    cbn [interpret] in H1. erewrite bind_Ok in H1; [|reflexivity].
    destruct (Forall_loop_last (interpret d s) x b (binders s)
                (interpret_preserves d s b) (interpret_touches d s b)
                _ _ _ _ _ Hne H1)
      as (e & st_e & m' & He & Hw & Hk & Hlast).
    destruct (scope_ready s x b st (contents st b)) with (e := e) (st := st_e)
      as (Hu1 & Hf1 & Hc1 & Hext); try done.
    { intros k Hin Hnx. apply (proj1 (closed_spec _ _ _) Hc). cbn [free_names].
      by apply list_elem_of_filter. }
    { by apply list_elem_of_fmap_2. }
    { intros k Hin Hnx. apply Hk. intros [->|Hin']%elem_of_cons; [done|].
      apply Hnx.
      by apply (proj1 (forallb_elem _ _) Hbs), bool_decide_eq_true in Hin'; auto. }
    apply world_eq in Hw as (Eu & Efr & Et).
    assert (universe (bound b x e st_e) ≠ []) as Hne1 by (cbn; by rewrite Eu).
    destruct (IHs d b _ _ _ _ ltac:(lia) Hs Hb Hu1 Hf1 Hc1 Hne1 Hlast) as [E1 E2].
    etrans; [|exact E2]. by apply (holds_ext (matrix s)).
  - destruct (interpret_holds_at (Exists x s) d b st) as (st1 & H1); try done.
    rewrite H1 in H. injection H as <- <- <-. split; [done|].
    cbn [height] in Hd. destruct d as [|d]; [lia|].
    cbn [hygienic] in Hh. apply andb_true_iff in Hh as [Hs Hbs].
    cbn [interpret] in H1. erewrite bind_Ok in H1; [|reflexivity].
    destruct (Exists_loop_last (interpret d s) x b (binders s)
                (interpret_preserves d s b) (interpret_touches d s b)
                (interpret_same_object d s b)
                _ _ _ _ _ Hne H1)
      as (e & st_e & m' & He & Hw & Hk & Hlast).
    destruct (scope_ready s x b st (contents st b)) with (e := e) (st := st_e)
      as (Hu1 & Hf1 & Hc1 & Hext); try done.
    { intros k Hin Hnx. apply (proj1 (closed_spec _ _ _) Hc). cbn [free_names].
      by apply list_elem_of_filter. }
    { by apply list_elem_of_fmap_2. }
    { intros k Hin Hnx. apply Hk. intros [->|Hin']%elem_of_cons; [done|].
      apply Hnx.
      by apply (proj1 (forallb_elem _ _) Hbs), bool_decide_eq_true in Hin'; auto. }
    apply world_eq in Hw as (Eu & Efr & Et).
    assert (universe (bound b x e st_e) ≠ []) as Hne1 by (cbn; by rewrite Eu).
    destruct (IHs d b _ _ _ _ ltac:(lia) Hs Hb Hu1 Hf1 Hc1 Hne1 Hlast) as [E1 E2].
    etrans; [|exact E2]. by apply (holds_ext (matrix s)).
Qed.

(** X13. The assignment returned is a certificate.  For a hygienic formula
    in prenex form (quantifiers in front of a quantifier-free matrix) over
    a non-empty universe, whenever interpretation returns [(tv, m)], [m] is
    the dictionary that was passed in, [tv] is the truth value of the
    formula, and the matrix evaluated under the final contents of [m] has
    that same truth value: a true existential formula comes with witnesses
    of its matrix, a false universal one with a counterexample. *)
Theorem assignment_certifies (f : Formula) (bindings : nat) (st : State)
    (tv : bool) (m : nat) (st' : State) :
  hygienic f = true → binders (matrix f) = [] →
  universe_named (universe st) → (∀ p, facts_named st p) →
  closed st (contents st bindings) f = true → universe st ≠ [] →
  Interp f bindings st (Ok (tv, m)) st' →
  m = bindings
  ∧ tv = holds st (contents st bindings) f
  ∧ holds st (contents st' m) (matrix f) = tv.
Proof.
  intros Hh Hb Hu Hfacts Hc Hne (d & H & _).
  pose proof (interpret_same_object _ _ _ _ _ _ _ H) as ->.
  split; [done|].
  apply (certifies_at f (d `max` height f) bindings st tv bindings st');
    try done; [lia|].
  assert (d ≤ d `max` height f)%nat as Hd by lia.
  exact (interpret_mono d _ f bindings Hd _ _ _ H ltac:(done)).
Qed.

(** X14. Forall.fact accepts exactly the formulas that are true: for a
    hygienic formula whose free names are constants or free variables
    denoting members of the universe, the call returns and adds the formula
    to the knowledge base when the formula holds under the free variables,
    and raises the inconsistency error, leaving the knowledge base as it
    was, when it does not.  Universe, fact tables and free variables are
    unchanged either way. *)
Theorem Forall_fact_holds (binder : string) (expr : Formula) (nm : option string)
    (st : State) :
  hygienic (Forall binder expr) = true →
  universe_named (universe st) → (∀ p, facts_named st p) →
  closed st (free st) (Forall binder expr) = true →
  ∃ r st',
    Fact binder expr nm st r st'
    ∧ universe st' = universe st ∧ truths st' = truths st ∧ free st' = free st
    ∧ if holds st (free st) (Forall binder expr) then
        r = Ok tt
        ∧ knowledge_base st' = knowledge_base st ++ [(Forall binder expr, nm)]
      else
        (∃ evidence, r = Raise (ValueError (Inconsistent (Forall binder expr) evidence)))
        ∧ knowledge_base st' = knowledge_base st.
Proof.
  intros Hh Hu Hfacts Hc.
  pose proof (with_free_bindings_contents st) as Hcont.
  set (F := Forall binder expr) in *.
  destruct (interpret_holds_at F (height F) (next_id st) (with_free_bindings st))
    as (st1 & H); try done.
  { by rewrite Hcont. }
  rewrite Hcont in H.
  assert (holds (with_free_bindings st) (free st) F = holds st (free st) F) as E
    by (by apply holds_ext).
  rewrite E in H.
  pose proof (interpret_preserves _ _ _ _ _ _ H) as Hw.
  rewrite with_free_bindings_world in Hw.
  assert (knowledge_base st1 = knowledge_base st) as Hkb
    by (by injection Hw as _ _ _ -> _ _).
  apply world_eq in Hw as (Eu & Efr & Et).
  assert (∀ r st', Forall_fact (height F) binder expr nm st = (r, st') →
            r ≠ Raise RecursionError → Fact binder expr nm st r st') as Hfact
    by (intros r st' ? ?; by exists (height F)).
  assert (Forall_fact (height F) binder expr nm st
          = (if holds st (free st) F then
               modify (λ s, set_knowledge_base (knowledge_base s ++ [(F, nm)]) s)
             else
               evidence ← gets (λ s, contents s (next_id st));
               raise (ValueError (Inconsistent F evidence))) st1) as Hrun.
  { unfold Forall_fact.
    erewrite bind_Ok; [|reflexivity]. erewrite bind_Ok; [|reflexivity].
    fold F. erewrite bind_Ok; [|exact H]. cbn beta iota.
    by destruct (holds st (free st) F). }
  destruct (holds st (free st) F) eqn:Hholds.
  - eexists _, _. split; [apply Hfact; [exact Hrun|done]|].
    cbn. by rewrite Hkb.
  - eexists _, _. split; [apply Hfact; [exact Hrun|done]|].
    cbn. split_and!; try done. by eexists.
Qed.

(** ** Bindings are never removed *)

Lemma keeps_bind {A B} b (m : M A) (k : A → M B) :
  keeps b m → (∀ a, keeps b (k a)) → keeps b (m ≫= k).
Proof.
  intros Hm Hk st r st' [(a & st1 & H1 & H2) | (e & H1 & _)]%bind_inv key Hkey.
  - eapply Hk; [exact H2|]. by eapply Hm.
  - by eapply Hm.
Qed.

Lemma keeps_pure {A} b (m : M A) : pure_lookup m → keeps b m.
Proof.
  intros Hm st r st' H key. destruct (Hm _ _ _ H) as [_ Hd].
  unfold contents. by rewrite Hd.
Qed.

Lemma keeps_setitem b b' key val : keeps b (SATAssign___setitem__ b' key val).
Proof.
  intros st r st' [= _ <-] k Hk.
  change (is_Some (contents (bound b' key val st) b !! k)).
  destruct (decide (b = b')) as [->|Hb].
  - rewrite contents_bound. destruct (decide (k = key)) as [->|Hne].
    + by rewrite lookup_insert_eq.
    + by rewrite lookup_insert_ne.
  - unfold contents, bound. cbn. by rewrite lookup_insert_ne.
Qed.

Section Loops_keep.
Context (I : Formula → nat → M (bool * nat)) (b : nat).
Hypothesis I_keeps : ∀ f b', keeps b (I f b').

Lemma Forall_loop_keeps scope binder elements b' :
  keeps b (Forall_loop (I scope) binder b' elements).
Proof.
  induction elements as [|e es IH]; cbn [Forall_loop].
  - apply keeps_pure, pure_mret.
  - apply keeps_bind; [apply keeps_setitem|]. intros _.
    apply keeps_bind; [apply I_keeps|].
    intros [[] m]; cbn [negb]; [apply IH|apply keeps_pure, pure_mret].
Qed.

Lemma Exists_loop_keeps scope binder elements b' :
  keeps b (Exists_loop (I scope) binder b' elements).
Proof.
  revert b'. induction elements as [|e es IH]; intros b'; cbn [Exists_loop].
  - apply keeps_pure, pure_mret.
  - apply keeps_bind; [apply keeps_setitem|]. intros _.
    apply keeps_bind; [apply I_keeps|].
    intros [[] m]; [apply keeps_pure, pure_mret|apply IH].
Qed.

Lemma resolve_loop_keeps items arglist b' :
  keeps b (resolve_loop I items arglist b').
Proof.
  revert arglist b'. induction items as [|[i arg] items IH]; intros arglist b';
    cbn [resolve_loop].
  - apply keeps_pure, pure_mret.
  - apply keeps_bind; [apply keeps_pure, pure_gets|]. intros u.
    destruct (in_universe arg u); [apply IH|].
    destruct arg as [s|t|f|tv];
      try (apply keeps_bind; [apply keeps_pure, pure_gets|]; intros d;
           destruct (lookup_arg _ d); [apply IH|];
           apply keeps_bind; [apply keeps_pure, pure_gets|]; intros fr;
           destruct (lookup_arg _ fr); [apply IH|apply keeps_pure, pure_raise]).
    apply keeps_bind; [apply I_keeps|]. intros [tv m]. apply IH.
Qed.
End Loops_keep.

Lemma interpret_keeps d f b b' : keeps b (interpret d f b').
Proof.
  revert f b'. induction d as [|d IH]; intros f b'; [apply keeps_pure, pure_raise|].
  destruct f; cbn [interpret];
    try (apply keeps_pure; first [apply pure_mret|apply pure_raise]).
  - apply keeps_bind; [apply IH|]. intros [b1 m1].
    apply keeps_bind; [apply IH|]. intros [b2 m2]. apply keeps_pure, pure_mret.
  - apply keeps_bind; [apply IH|]. intros [b1 m1].
    apply keeps_bind; [apply IH|]. intros [b2 m2]. apply keeps_pure, pure_mret.
  - apply keeps_bind; [apply IH|]. intros [[] m1];
      [apply IH|apply keeps_pure, pure_mret].
  - apply keeps_bind; [apply IH|]. intros [tv m]. apply keeps_pure, pure_mret.
  - apply keeps_bind; [apply keeps_pure, pure_gets|]. intros u.
    by apply Forall_loop_keeps.
  - apply keeps_bind; [apply keeps_pure, pure_gets|]. intros u.
    by apply Exists_loop_keeps.
  - unfold Predicate_interpret.
    apply keeps_bind; [by apply resolve_loop_keeps|]. intros [arglist m].
    apply keeps_bind; [apply keeps_pure, Predicate___call___pure|]. intros f.
    apply IH.
Qed.

(** X15. Interpretation never removes a binding: a name bound in a
    dictionary before is bound in it after, whatever the outcome.  In
    particular a quantifier over a non-empty universe leaves its binder
    bound in the dictionary it was given, so that a later interpretation
    with the same dictionary (the shared default one, when the argument is
    omitted) resolves that name instead of reporting it as unbound. *)
Theorem interpret_never_unbinds (d : nat) (f : Formula) (bindings : nat) (st : State) :
  let st' := (interpret (S d) f bindings st).2 in
  (∀ b k, is_Some (contents st b !! k) → is_Some (contents st' b !! k))
  ∧ ∀ x s, f = Forall x s ∨ f = Exists x s → universe st ≠ [] →
      is_Some (contents st' bindings !! x)
      ∧ has_resolution st' bindings (AStr x) = true.
Proof.
  intros st'. split.
  - intros b k.
    apply (interpret_keeps (S d) f b bindings st
             (interpret (S d) f bindings st).1 st').
    subst st'. by destruct (interpret _ _ _ _).
  - intros x s Hf Hne.
    assert (is_Some (contents st' bindings !! x)) as Hx.
    { destruct (universe st) as [|e es] eqn:Hu; [done|].
      assert (∃ (loop : nat → M (bool * nat)),
                keeps bindings (loop bindings)
                ∧ interpret (S d) f bindings st
                  = (SATAssign___setitem__ bindings x e;; loop bindings) st)
        as (loop & Hloop & Hrun).
      { destruct Hf as [-> | ->]; cbn [interpret];
          (erewrite bind_Ok; [|reflexivity]); rewrite Hu.
        - exists (λ b, '(tv, m) ← interpret d s b;
                       if negb tv then mret (false, m)
                       else Forall_loop (interpret d s) x b es).
          split; [|done].
          apply keeps_bind; [apply interpret_keeps|].
          intros [[] m]; cbn [negb];
            [apply Forall_loop_keeps; intros; apply interpret_keeps
            |apply keeps_pure, pure_mret].
        - exists (λ b, '(tv, b) ← interpret d s b;
                       if tv : bool then mret (true, b)
                       else Exists_loop (interpret d s) x b es).
          split; [|done].
          apply keeps_bind; [apply interpret_keeps|].
          intros [[] m];
            [apply keeps_pure, pure_mret
            |apply Exists_loop_keeps; intros; apply interpret_keeps]. }
      subst st'. rewrite Hrun. erewrite bind_Ok; [|reflexivity].
      change (is_Some (contents (loop bindings (bound bindings x e st)).2 bindings !! x)).
      apply (Hloop (bound bindings x e st) (loop bindings (bound bindings x e st)).1).
      - by destruct (loop bindings _).
      - by rewrite contents_bound, lookup_insert_eq. }
    split; [done|]. unfold has_resolution. cbn [lookup_arg].
    rewrite (bool_decide_eq_true_2 _ Hx). by rewrite orb_true_r.
Qed.

(** ** Rebinding a free variable *)

Lemma FreeVars___setitem___spec key val st :
  let warning := "Warning: resetting alread-set free variable binding: "
                 +:+ key +:+ "=" +:+ val in
  let warned := if decide (is_Some (free st !! key))
                then set_stdout (stdout st ++ [warning]) st else st in
  ∃ st', FreeVars___setitem__ key val st = (Ok tt, st')
         ∧ free st' = <[key := mkTerm (next_id st) val]> (free st)
         ∧ next_id st' = S (next_id st)
         ∧ universe st `prefix_of` universe st'
         ∧ stdout warned `prefix_of` stdout st'
         ∧ (val ≠ "" →
            in_universe (ATerm (mkTerm (next_id st) val)) (universe st') = true).
Proof.
  intros warning warned. unfold FreeVars___setitem__.
  erewrite bind_Ok; [|reflexivity].
  assert ((if decide (is_Some (free st !! key)) then print warning else mret tt) st
          = (Ok tt, warned)) as Hwarn.
  { subst warned. by destruct (decide (is_Some (free st !! key))). }
  rewrite (bind_Ok _ _ _ _ _ Hwarn).
  assert (universe warned = universe st ∧ free warned = free st
          ∧ next_id warned = next_id st) as (Eu & Efr & Eid).
  { subst warned. by destruct (decide (is_Some (free st !! key))). }
  pose proof (Term___init___spec val warned) as Hinit. cbv zeta in Hinit.
  rewrite Eid, Eu in Hinit.
  destruct (nonempty val
            && negb (in_universe (ATerm (mkTerm (next_id st) val)) (universe st)))
    eqn:Hc; rewrite (bind_Ok _ _ _ _ _ Hinit); (eexists; split; [reflexivity|]);
    cbn [free set_free set_stdout set_universe set_next_id next_id universe stdout];
    rewrite ?Eu, ?Efr, ?Eid; split_and!; try done.
  - by apply prefix_app_r.
  - by apply prefix_app_r.
  - intros _. apply andb_true_iff in Hc as [Hval _].
    unfold in_universe. rewrite existsb_app. apply orb_true_iff. right.
    cbn [existsb]. by rewrite Term___eq___refl.
  - intros Hne%nonempty_true. rewrite Hne in Hc. cbn [andb] in Hc.
    by apply negb_false_iff in Hc.
Qed.

(** X16. Binding a free variable twice: both assignments succeed, the
    second value is the one bound afterwards and the other free variables
    are as before, the second assignment prints the warning about the
    binding being reset, and the Term of the first value, when its name is
    not empty, is still a member of the universe although nothing binds
    it any more. *)
Theorem FreeVars_setitem_rebinds (key v1 v2 : string) (st : State) :
  ∃ t1 t2 st1 st2,
    FreeVars___setitem__ key v1 st = (Ok tt, st1)
    ∧ FreeVars___setitem__ key v2 st1 = (Ok tt, st2)
    ∧ name t1 = v1 ∧ name t2 = v2
    ∧ free st1 = <[key := t1]> (free st)
    ∧ free st2 = <[key := t2]> (free st)
    ∧ ("Warning: resetting alread-set free variable binding: "
       +:+ key +:+ "=" +:+ v2) ∈ stdout st2
    ∧ universe st ⊆ universe st2
    ∧ (v1 ≠ "" → in_universe (ATerm t1) (universe st2) = true).
Proof.
  destruct (FreeVars___setitem___spec key v1 st)
    as (st1 & H1 & Hfr1 & Hid1 & Hu1 & _ & Hin1).
  destruct (FreeVars___setitem___spec key v2 st1)
    as (st2 & H2 & Hfr2 & Hid2 & Hu2 & Hout2 & _).
  exists (mkTerm (next_id st) v1), (mkTerm (next_id st1) v2), st1, st2.
  split_and!; try done.
  - by rewrite Hfr2, Hfr1, insert_insert_eq.
  - rewrite decide_True in Hout2 by (rewrite Hfr1, lookup_insert_eq; by eexists).
    destruct Hout2 as [rest ->]. cbn [stdout set_stdout].
    apply elem_of_app. left. apply elem_of_app. right. by apply list_elem_of_singleton.
  - intros e He. destruct Hu2 as [k2 ->], Hu1 as [k1 ->].
    apply elem_of_app. left. apply elem_of_app. by left.
  - intros Hne. eapply in_universe_prefix; [exact Hu2|]. by apply Hin1.
Qed.

(** ** Checking the hypotheses on a concrete state *)

Lemma universe_named_check u :
  forallb (λ e, nonempty (name e)) u = true → universe_named u.
Proof. intros H e He. by apply (proj1 (forallb_elem _ _) H). Qed.

Lemma facts_named_check st :
  forallb (λ it : nat * list (list Term),
             forallb (forallb (λ t, nonempty (name t))) it.2)
          (map_to_list (truths st)) = true →
  ∀ p, facts_named st p.
Proof.
  intros H p truth t Htruth Ht. unfold _truths in Htruth.
  destruct (truths st !! pred_id p) as [table|] eqn:E;
    [|by apply elem_of_nil in Htruth].
  apply elem_of_map_to_list in E.
  apply (proj1 (forallb_elem _ _) H) in E. cbn in E, Htruth.
  apply (proj1 (forallb_elem _ _) E) in Htruth.
  by apply (proj1 (forallb_elem _ _) Htruth).
Qed.

Lemma after_setup_named : universe_named (universe after_setup).
Proof. apply universe_named_check. vm_compute. reflexivity. Qed.

Lemma after_setup_facts_named : ∀ p, facts_named after_setup p.
Proof. apply facts_named_check. vm_compute. reflexivity. Qed.

(** The formula of the tests, [Forall x, Forall y, Forall z, ...]. *)
Lemma interpret_holds_witness :
  hygienic (Forall "x" transitive) = true
  ∧ closed after_setup (contents after_setup 7) (Forall "x" transitive) = true
  ∧ ∃ st',
      Interp (Forall "x" transitive) 7 after_setup
        (Ok (holds after_setup (contents after_setup 7) (Forall "x" transitive), 7%nat)) st'
      ∧ world st' = world after_setup.
Proof.
  assert (hygienic (Forall "x" transitive) = true) as Hh by (vm_compute; reflexivity).
  assert (closed after_setup (contents after_setup 7) (Forall "x" transitive) = true)
    as Hc by (vm_compute; reflexivity).
  split; [exact Hh|]. split; [exact Hc|].
  exact (interpret_holds (Forall "x" transitive) 7 after_setup Hh
           after_setup_named after_setup_facts_named Hc).
Defined.

Lemma assignment_certifies_witness :
  hygienic some_prerequisite = true
  ∧ binders (matrix some_prerequisite) = []
  ∧ closed after_setup (contents after_setup 8) some_prerequisite = true
  ∧ Interp some_prerequisite 8 after_setup (Ok (true, 8%nat))
      (interpret 10 some_prerequisite 8 after_setup).2
  ∧ 8%nat = 8%nat
  ∧ true = holds after_setup (contents after_setup 8) some_prerequisite
  ∧ holds after_setup (contents (interpret 10 some_prerequisite 8 after_setup).2 8)
      (matrix some_prerequisite) = true.
Proof.
  assert (hygienic some_prerequisite = true) as Hh by (vm_compute; reflexivity).
  assert (closed after_setup (contents after_setup 8) some_prerequisite = true)
    as Hc by (vm_compute; reflexivity).
  assert (universe after_setup ≠ []) as Hne by (vm_compute; discriminate).
  assert (Interp some_prerequisite 8 after_setup (Ok (true, 8%nat))
            (interpret 10 some_prerequisite 8 after_setup).2) as H.
  { exists 10%nat. split; [vm_compute; reflexivity|discriminate]. }
  split; [exact Hh|]. split; [reflexivity|]. split; [exact Hc|]. split; [exact H|].
  exact (assignment_certifies some_prerequisite 8 after_setup true 8 _ Hh eq_refl
           after_setup_named after_setup_facts_named Hc Hne H).
Defined.

Lemma Forall_fact_holds_witness :
  hygienic (Forall "x" transitive) = true
  ∧ closed after_setup (free after_setup) (Forall "x" transitive) = true
  ∧ holds after_setup (free after_setup) (Forall "x" transitive) = false
  ∧ ∃ r st',
      Fact "x" transitive None after_setup r st'
      ∧ universe st' = universe after_setup ∧ truths st' = truths after_setup
      ∧ free st' = free after_setup
      ∧ if holds after_setup (free after_setup) (Forall "x" transitive) then
          r = Ok tt
          ∧ knowledge_base st'
            = knowledge_base after_setup ++ [(Forall "x" transitive, None)]
        else
          (∃ evidence,
             r = Raise (ValueError (Inconsistent (Forall "x" transitive) evidence)))
          ∧ knowledge_base st' = knowledge_base after_setup.
Proof.
  assert (hygienic (Forall "x" transitive) = true) as Hh by (vm_compute; reflexivity).
  assert (closed after_setup (free after_setup) (Forall "x" transitive) = true)
    as Hc by (vm_compute; reflexivity).
  split; [exact Hh|]. split; [exact Hc|]. split; [vm_compute; reflexivity|].
  exact (Forall_fact_holds "x" transitive None after_setup Hh
           after_setup_named after_setup_facts_named Hc).
Defined.

(** Without the discipline on bound names the in-place update shows: in
    [Exists x, (Exists x, PreReq(MATH22, x)) & PreReq(x, MATH22)] the inner
    quantifier leaves its own element under "x", which the right operand
    then reads.  The formula holds (take MATH21 outside, MATH121 inside)
    and is interpreted to false. *)
Example in_place_update_observable :
  let f := Exists "x" (_And (Exists "x" (PredApp PreReq [M22; AStr "x"]))
                            (PredApp PreReq [AStr "x"; M22])) in
  hygienic f = false
  ∧ closed after_setup (contents after_setup 8) f = true
  ∧ holds after_setup (contents after_setup 8) f = true
  ∧ (interpret 10 f 8 after_setup).1 = Ok (false, 8%nat).
Proof. cbv zeta. repeat apply conj; vm_compute; reflexivity. Qed.

(** ** Instances of the further properties *)

Lemma Implies_material_witness :
  Interp (_Or (_Not PreReq_x_x) PreReq_y_121) 0 after_binding_x_y (Ok (true, 0%nat))
    (interpret 10 (_Or (_Not PreReq_x_x) PreReq_y_121) 0 after_binding_x_y).2
  ∧ ∃ st'',
      Interp (_Implies PreReq_x_x PreReq_y_121) 0 after_binding_x_y (Ok (true, 0%nat)) st''.
Proof.
  assert (Interp (_Or (_Not PreReq_x_x) PreReq_y_121) 0 after_binding_x_y
            (Ok (true, 0%nat))
            (interpret 10 (_Or (_Not PreReq_x_x) PreReq_y_121) 0 after_binding_x_y).2)
    as H.
  { exists 10%nat. split; [vm_compute; reflexivity|discriminate]. }
  split; [exact H|].
  exact (Implies_material PreReq_x_x PreReq_y_121 0 after_binding_x_y true 0 _ H).
Defined.

Lemma nested_argument_never_interpreted_witness :
  AForm (FuncApp next [AStr "y"]) ∈ [AStr "x"; AForm (FuncApp next [AStr "y"])]
  ∧ ∃ e, (interpret 10 PreReq_x_next_y 0 after_binding_x_y).1 = Raise e.
Proof.
  assert (AForm (FuncApp next [AStr "y"]) ∈ [AStr "x"; AForm (FuncApp next [AStr "y"])])
    as Hin by (apply elem_of_cons; right; apply elem_of_cons; by left).
  split; [exact Hin|].
  exact (nested_argument_never_interpreted 10 PreReq _ 0 after_binding_x_y _ Hin).
Defined.

Lemma Term_init_twice_witness :
  universe_named (universe after_setup)
  ∧ ∃ t1 st1 t2 st2,
      Term___init__ "MATH21" after_setup = (Ok t1, st1)
      ∧ Term___init__ "MATH21" st1 = (Ok t2, st2)
      ∧ name t1 = "MATH21" ∧ name t2 = "MATH21" ∧ ident t1 ≠ ident t2
      ∧ universe st2 = universe st1
      ∧ ("MATH21" ≠ "" →
         in_universe (AStr "MATH21") (universe st1) = true
         ∧ Term___eq__ t1 (ATerm t2) = true)
      ∧ ("MATH21" = "" →
         universe st1 = universe after_setup
         ∧ Term___eq__ t1 (ATerm t2) = false ∧ Term___eq__ t1 (ATerm t1) = true).
Proof.
  split; [exact after_setup_named|].
  exact (Term_init_twice "MATH21" after_setup after_setup_named).
Defined.

Lemma fact_then_call_witness :
  Z.of_nat (length ["MATH21"; "MATH121"]) = arity PreReq
  ∧ (∀ n, n ∈ ["MATH21"; "MATH121"] → n ≠ "")
  ∧ universe_named (universe after_setup)
  ∧ facts_named after_setup PreReq
  ∧ ∃ st1 st2 st3,
      Predicate_fact PreReq (AStr <$> ["MATH21"; "MATH121"]) after_setup = (Ok tt, st1)
      ∧ Predicate___call__ PreReq (AStr <$> ["MATH21"; "MATH121"]) st1 = (Ok Top, st2)
      ∧ Predicate_fact PreReq (AStr <$> ["MATH21"; "MATH121"]) st1 = (Ok tt, st3)
      ∧ _truths st3 PreReq = _truths st1 PreReq
      ∧ universe_named (universe st1) ∧ facts_named st1 PreReq.
Proof.
  assert (∀ n, n ∈ ["MATH21"; "MATH121"] → n ≠ "") as Hnames.
  { intros n [->|[->|[]%elem_of_nil]%elem_of_cons]%elem_of_cons; discriminate. }
  split; [reflexivity|]. split; [exact Hnames|].
  split; [exact after_setup_named|]. split; [exact (after_setup_facts_named PreReq)|].
  exact (fact_then_call PreReq ["MATH21"; "MATH121"] after_setup eq_refl Hnames
           after_setup_named (after_setup_facts_named PreReq)).
Defined.

(** The default dictionary is one object per class: a name that one
    interpretation leaves bound is seen by the next.  [Exists y,
    PreReq(x, y)] on its own cannot be interpreted, "x" being unbound;
    after [Exists x, PreReq(x, MATH22)] has been interpreted, both with the
    default dictionary of Exists, it can. *)
Example default_bindings_shared :
  let first := Exists "x" (PredApp PreReq [AStr "x"; M22]) in
  let second := Exists "y" (PredApp PreReq [AStr "x"; AStr "y"]) in
  default_bindings first = 8%nat ∧ default_bindings second = 8%nat
  ∧ (interpret 10 second 8 after_setup).1
    = Raise (ValueError (CannotInterpret (AStr "x") (universe after_setup)
                           (free after_setup)))
  ∧ (interpret 10 first 8 after_setup).1 = Ok (true, 8%nat)
  ∧ (interpret 10 second 8 (interpret 10 first 8 after_setup).2).1 = Ok (true, 8%nat).
Proof. cbv zeta. repeat apply conj; vm_compute; reflexivity. Qed.
